(** * nengo_viz: the visualization organizer [Viz] and its simulator
    attachments [VizSim]  (nengo_viz/viz.py)

    A shallow embedding of the two classes of [viz.py].  Python objects live
    in a heap addressed by natural numbers, and [id(obj)] is the address of
    [obj].  The constructor [VizSim.__init__] and the thread body
    [VizSim.runner] are cut into their atomic actions, one per visited
    program point, so that the paths of several sessions, the configuration
    calls and the websocket side ([pop_component]) can be interleaved. *)

From Stdlib Require Import QArith.
From stdpp Require Import gmap strings list fin_maps.

Set Default Proof Using "Type".

(** ** Data model *)

(** Arguments a configuration call passes on to a component class. *)
Inductive pyarg :=
  | ArgObject (addr : nat)
  | ArgInt (z : Z)
  | ArgStr (s : string).

(** The component classes of [nengo_viz.components] named in [viz.py]. *)
Inductive component_cls := SimControl | Slider | Value.

(** A template entry: the tuple [(cls, args, kwargs)]. *)
Definition ComponentSpec : Type :=
  component_cls * list pyarg * list (string * pyarg).

(** A component instance [cls(self, args..., kwargs...)]: its address, the
    session it was built for and the template entry it came from. *)
Record Component := mkComponent {
  comp_id : nat;
  comp_sim : nat;
  comp_spec : ComponentSpec
}.

Inductive exn :=
  | KeyError (key : nat)
  | BuildError
  | LockError.

(** What a Python call hands back: a value, or an exception. *)
Inductive pyresult (A : Type) :=
  | Return (a : A)
  | Raise (e : exn).
Arguments Return {A} a.
Arguments Raise {A} e.

(** Values returned by the methods of [Viz]. *)
Inductive pyvalue :=
  | PyNone
  | PyInt (n : nat)
  | PyComponent (c : Component).

(** A call that may wait for ever on [lock.acquire()]. *)
Inductive call_result (A : Type) :=
  | Returned (a : A)
  | Blocked.
Arguments Returned {A} a.
Arguments Blocked {A}.

#[global] Instance pyarg_eq_dec : EqDecision pyarg.
Proof. solve_decision. Defined.
#[global] Instance component_cls_eq_dec : EqDecision component_cls.
Proof. solve_decision. Defined.
#[global] Instance Component_eq_dec : EqDecision Component.
Proof. solve_decision. Defined.
#[global] Instance exn_eq_dec : EqDecision exn.
Proof. solve_decision. Defined.

(** The collaborators [viz.py] only calls into: the nengo model and
    simulator, and what a component does to the model when it is
    constructed and when [remove_nengo_objects] is called on it. *)
Class Nengo := {
  Model : Type;
  Simulation : Type;
  (** [nengo.Simulator(model, dt=dt)]; [None] when the build raises *)
  nengo_Simulator : Model → Q → option Simulation;
  (** [sim.run(t, progress_bar=False)] *)
  Simulation_run : Simulation → Q → Simulation;
  (** the model after [cls(self, args..., kwargs...)] *)
  component_init : Component → Model → Model;
  (** the model after [c.remove_nengo_objects(viz)] *)
  remove_nengo_objects : Component → Model → Model
}.

(** Program points of one session: [__init__] on the calling path, then
    [runner] on the thread it starts. *)
Inductive pc :=
  | PAcquire                (* line 22, before [lock.acquire()] *)
  | PInit (i : nat)         (* line 25, iterator of the template at index i *)
  | PBuild                  (* line 35, thread started *)
  | PUndo (j : nat)         (* line 38, iterator of self.components at j *)
  | PSetBuilding            (* line 43, lock released *)
  | PLoop                   (* line 46, the test of the while loop *)
  | PRun                    (* line 47, inside the loop body *)
  | PDone                   (* the loop was left, the thread is over *)
  | PFailed (e : exn).      (* the thread died of an exception *)

#[global] Instance pc_eq_dec : EqDecision pc.
Proof. solve_decision. Defined.

(** What an observer sees of one atomic action. *)
Inductive event :=
  | ECall (s : nat)                    (* [create_sim()] entered, lines 14-19 *)
  | EAcquire (s : nat)                 (* line 22 *)
  | EComponent (s : nat) (c : Component) (* lines 26-28 *)
  | ESpawn (s : nat)                   (* line 31, [__init__] returns *)
  | EBuild (s : nat)                   (* line 35, simulator built *)
  | ERaise (s : nat) (e : exn)         (* the thread dies *)
  | EUndo (s : nat) (c : Component)    (* line 39 *)
  | ERelease (s : nat)                 (* line 41 *)
  | ERunning (s : nat)                 (* line 43 *)
  | ECheck (s : nat)                   (* line 46, flag read as False *)
  | ERun (s : nat)                     (* line 47, one quantum simulated *)
  | EExit (s : nat)                    (* line 46, flag read as True *)
  | EFinish (s : nat)                  (* [finish()] *)
  | EConfig (spec : ComponentSpec)     (* [slider()] or [value()] *)
  | EPop (id : nat) (c : Component)    (* [pop_component(id)] returned c *)
  | EPopFail (id : nat).               (* [pop_component(id)] raised *)

#[global] Instance event_eq_dec : EqDecision event.
Proof. solve_decision. Defined.

(** What the scheduler may pick next: a call from outside, or the next
    atomic action of a session's own path. *)
Inductive action :=
  | ACreateSim
  | ASession (s : nat)
  | ASlider (args : list pyarg) (kwargs : list (string * pyarg))
  | AValue (args : list pyarg) (kwargs : list (string * pyarg))
  | AFinish (s : nat)
  | APopComponent (id : nat).

Section Viz.
Context `{Nengo}.

(** [class Viz]: [self.components] is the dictionary of the components
    that wait for their websocket connection. *)
Record Viz := mkViz {
  viz_model : Model;
  viz_template : list ComponentSpec;
  viz_dt : Q;
  viz_Simulator : Model → Q → option Simulation;
  viz_lock : bool;
  viz_components : gmap nat Component
}.

(** [class VizSim]: [self.viz] and [self.model] alias the one organizer and
    its model, so they are not copied here. *)
Record VizSim := mkVizSim {
  vs_dt : Q;
  vs_building : bool;
  vs_components : list Component;
  vs_finished : bool;
  vs_sim : option Simulation;
  vs_pc : pc
}.

(** The organizer, the sessions on the heap, and the next free address. *)
Record World := mkWorld {
  w_viz : Viz;
  w_sims : gmap nat VizSim;
  w_next : nat
}.

Definition set_model (m : Model) (v : Viz) : Viz :=
  mkViz m (viz_template v) (viz_dt v) (viz_Simulator v) (viz_lock v)
        (viz_components v).
Definition set_template (t : list ComponentSpec) (v : Viz) : Viz :=
  mkViz (viz_model v) t (viz_dt v) (viz_Simulator v) (viz_lock v)
        (viz_components v).
Definition set_lock (b : bool) (v : Viz) : Viz :=
  mkViz (viz_model v) (viz_template v) (viz_dt v) (viz_Simulator v) b
        (viz_components v).
Definition set_components (r : gmap nat Component) (v : Viz) : Viz :=
  mkViz (viz_model v) (viz_template v) (viz_dt v) (viz_Simulator v)
        (viz_lock v) r.

Definition set_pc (p : pc) (vs : VizSim) : VizSim :=
  mkVizSim (vs_dt vs) (vs_building vs) (vs_components vs) (vs_finished vs)
           (vs_sim vs) p.
Definition set_building (b : bool) (vs : VizSim) : VizSim :=
  mkVizSim (vs_dt vs) b (vs_components vs) (vs_finished vs) (vs_sim vs)
           (vs_pc vs).
Definition set_sim (o : option Simulation) (vs : VizSim) : VizSim :=
  mkVizSim (vs_dt vs) (vs_building vs) (vs_components vs) (vs_finished vs)
           o (vs_pc vs).
Definition append_component (c : Component) (vs : VizSim) : VizSim :=
  mkVizSim (vs_dt vs) (vs_building vs) (vs_components vs ++ [c])
           (vs_finished vs) (vs_sim vs) (vs_pc vs).

Definition with_viz (v : Viz) (w : World) : World :=
  mkWorld v (w_sims w) (w_next w).
Definition with_sim (s : nat) (vs : VizSim) (w : World) : World :=
  mkWorld (w_viz w) (<[s := vs]> (w_sims w)) (w_next w).

(** ** class Viz *)

Definition default_dt : Q := 1 # 1000.

(** [Viz.__init__(model, dt, Simulator)] *)
Definition Viz_init (model : Model) (dt : Q)
    (Simulator : Model → Q → option Simulation) : Viz :=
  mkViz model [(SimControl, [], [])] dt Simulator false ∅.

(** [Viz.slider] with its positional and keyword arguments *)
Definition slider (v : Viz) (args : list pyarg)
    (kwargs : list (string * pyarg)) : Viz * pyvalue :=
  (set_template (viz_template v ++ [(Slider, args, kwargs)]) v, PyNone).

(** [Viz.value] with its positional and keyword arguments *)
Definition value (v : Viz) (args : list pyarg)
    (kwargs : list (string * pyarg)) : Viz * pyvalue :=
  (set_template (viz_template v ++ [(Value, args, kwargs)]) v, PyNone).

(** [Viz.add(component)]: [self.components[id(component)] = component] *)
Definition add (v : Viz) (c : Component) : Viz * pyvalue :=
  (set_components (<[comp_id c := c]> (viz_components v)) v, PyNone).

(** [Viz.pop_component(id)]: the subscript raises [KeyError] on a key that
    is not in the dictionary, before anything is deleted. *)
Definition pop_component (v : Viz) (id : nat) : Viz * pyresult Component :=
  match viz_components v !! id with
  | Some c => (set_components (delete id (viz_components v)) v, Return c)
  | None => (v, Raise (KeyError id))
  end.

(** ** class VizSim *)

(** Lines 14 to 19 of [VizSim.__init__]. *)
Definition VizSim_new (v : Viz) : VizSim :=
  mkVizSim (viz_dt v) true [] false None PAcquire.

(** [VizSim.finish()] *)
Definition finish (vs : VizSim) : VizSim :=
  mkVizSim (vs_dt vs) (vs_building vs) (vs_components vs) true (vs_sim vs)
           (vs_pc vs).

(** The simulated time of one pass of the run loop. *)
Definition quantum : Q := 1 # 10.

(** The body of the loop of lines 25 to 28, entered with the iterator at
    index [i]: construct the component at a fresh address, register it and
    append it to the session's list.

    The address comes from a counter and nothing on this heap is ever
    collected, so an address is not handed out twice.  CPython only
    promises that [id()] differs between objects that are alive at the same
    time, and may give the address of a collected component to a later one:
    what is stated about ids below is therefore stated per registration
    (what was constructed, and what was popped since then), never about an
    id for all time.  The constructor call of line 26 is followed on its
    returning path, and the three lines are one action. *)
Definition new_component (i : nat) (spec : ComponentSpec) (s : nat)
    (w : World) : Component * World :=
  let c := mkComponent (w_next w) s spec in
  let v := set_model (component_init c (viz_model (w_viz w))) (w_viz w) in
  let v := fst (add v c) in
  (c, mkWorld v
        (alter (λ vs, set_pc (PInit (S i)) (append_component c vs)) s
               (w_sims w))
        (S (w_next w))).

(** The loop of lines 25 to 28 run from index [i] over the entries [specs]
    that are left. *)
Fixpoint VizSim_init_loop (i : nat) (specs : list ComponentSpec) (s : nat)
    (w : World) : World :=
  match specs with
  | [] => w
  | spec :: rest => VizSim_init_loop (S i) rest s (new_component i spec s w).2
  end.

(** Allocation of the session object and lines 14 to 19. *)
Definition VizSim_alloc (w : World) : nat * World :=
  (w_next w,
   mkWorld (w_viz w) (<[w_next w := VizSim_new (w_viz w)]> (w_sims w))
           (S (w_next w))).

(** Line 22 on a free lock. *)
Definition acquire (s : nat) (w : World) : World :=
  mkWorld (set_lock true (w_viz w)) (alter (set_pc (PInit 0)) s (w_sims w))
          (w_next w).

(** Line 31: the thread is started at [runner]. *)
Definition spawn (s : nat) (w : World) : World :=
  mkWorld (w_viz w) (alter (set_pc PBuild) s (w_sims w)) (w_next w).

(** [Viz.create_sim()], that is [VizSim(self)], with nothing interleaved:
    the whole of [__init__] on the calling path.  On a held lock line 22
    does not return. *)
Definition create_sim (w : World) : call_result (nat * World) :=
  let '(s, w0) := VizSim_alloc w in
  if viz_lock (w_viz w0) then Blocked
  else
    let w1 := acquire s w0 in
    Returned (s, spawn s (VizSim_init_loop 0 (viz_template (w_viz w1)) s w1)).

(** The next atomic action of session [s], if it has one: [None] when the
    session waits for the lock or its path is over.  Of the calls out of
    [viz.py] only the simulator constructor of line 35 has its raising path
    here; the component constructor (line 26), the start of the thread
    (line 31), [remove_nengo_objects] (line 39) and [sim.run] (line 47) are
    followed on their returning path. *)
Definition session_step (w : World) (s : nat) : option (event * World) :=
  vs ← w_sims w !! s;
  match vs_pc vs with
  | PAcquire =>
      if viz_lock (w_viz w) then None
      else Some (EAcquire s, acquire s w)
  | PInit i =>
      match viz_template (w_viz w) !! i with
      | Some spec =>
          let '(c, w') := new_component i spec s w in
          Some (EComponent s c, w')
      | None => Some (ESpawn s, spawn s w)
      end
  | PBuild =>
      match viz_Simulator (w_viz w) (viz_model (w_viz w)) (vs_dt vs) with
      | Some sm =>
          Some (EBuild s, with_sim s (set_pc (PUndo 0) (set_sim (Some sm) vs)) w)
      | None => Some (ERaise s BuildError, with_sim s (set_pc (PFailed BuildError) vs) w)
      end
  | PUndo j =>
      match vs_components vs !! j with
      | Some c =>
          Some (EUndo s c,
                with_sim s (set_pc (PUndo (S j)) vs)
                  (with_viz (set_model (remove_nengo_objects c (viz_model (w_viz w)))
                                       (w_viz w)) w))
      | None =>
          if viz_lock (w_viz w)
          then Some (ERelease s,
                     with_sim s (set_pc PSetBuilding vs)
                       (with_viz (set_lock false (w_viz w)) w))
          else Some (ERaise s LockError, with_sim s (set_pc (PFailed LockError) vs) w)
      end
  | PSetBuilding =>
      Some (ERunning s, with_sim s (set_pc PLoop (set_building false vs)) w)
  | PLoop =>
      if vs_finished vs
      then Some (EExit s, with_sim s (set_pc PDone vs) w)
      else Some (ECheck s, with_sim s (set_pc PRun vs) w)
  | PRun =>
      Some (ERun s,
            with_sim s
              (set_pc PLoop
                 (set_sim ((λ sm, Simulation_run sm quantum) <$> vs_sim vs) vs))
              w)
  | PDone => None
  | PFailed _ => None
  end.

(** One scheduled action; [None] when it cannot happen in [w]. *)
Definition step (w : World) (a : action) : option (event * World) :=
  match a with
  | ACreateSim => let '(s, w') := VizSim_alloc w in Some (ECall s, w')
  | ASession s => session_step w s
  | ASlider args kwargs =>
      Some (EConfig (Slider, args, kwargs),
            with_viz (slider (w_viz w) args kwargs).1 w)
  | AValue args kwargs =>
      Some (EConfig (Value, args, kwargs),
            with_viz (value (w_viz w) args kwargs).1 w)
  | AFinish s =>
      vs ← w_sims w !! s;
      Some (EFinish s, with_sim s (finish vs) w)
  | APopComponent id =>
      match pop_component (w_viz w) id with
      | (v, Return c) => Some (EPop id c, with_viz v w)
      | (v, Raise _) => Some (EPopFail id, with_viz v w)
      end
  end.

(** A schedule run from [w]: the trace of events and the world reached. *)
Fixpoint run (w : World) (acts : list action) : option (list event * World) :=
  match acts with
  | [] => Some ([], w)
  | a :: rest =>
      '(e, w') ← step w a;
      '(tr, w'') ← run w' rest;
      Some (e :: tr, w'')
  end.

(** The world right after [Viz(model, dt, Simulator)]. *)
Definition init_world (model : Model) (dt : Q)
    (Simulator : Model → Q → option Simulation) : World :=
  mkWorld (Viz_init model dt Simulator) ∅ 0.

(** ** Observations on traces *)

(** The events of session [s]'s own path. *)
Definition on_path (s : nat) (e : event) : bool :=
  match e with
  | EAcquire s' | EComponent s' _ | ESpawn s' | EBuild s' | ERaise s' _
  | EUndo s' _ | ERelease s' | ERunning s' | ECheck s' | ERun s' | EExit s' =>
      bool_decide (s' = s)
  | _ => false
  end.

Definition path (s : nat) (tr : list event) : list event :=
  List.filter (on_path s) tr.

Definition undo_of (s : nat) (e : event) : option Component :=
  match e with
  | EUndo s' c => if decide (s' = s) then Some c else None
  | _ => None
  end.

(** The components of [s] whose [remove_nengo_objects] ran, in order. *)
Definition undos (s : nat) (tr : list event) : list Component :=
  omap (undo_of s) tr.

(** The number of quanta [s] simulated. *)
Definition runs (s : nat) (tr : list event) : nat :=
  length (List.filter (λ e, bool_decide (e = ERun s)) tr).

(** [s] went through line 22 and not yet through line 41. *)
Definition holds_lock (s : nat) (tr : list event) : Prop :=
  EAcquire s ∈ tr ∧ ERelease s ∉ tr.

(** The successful [pop_component(id)] calls of a trace. *)
Definition pops (id : nat) (tr : list event) : nat :=
  length (List.filter (λ e, match e with
                            | EPop id' _ => bool_decide (id' = id)
                            | _ => false
                            end) tr).

(** The components a trace constructed, and registered, under [id]. *)
Definition constructions (id : nat) (tr : list event) : nat :=
  length (List.filter (λ e, match e with
                            | EComponent _ c => bool_decide (comp_id c = id)
                            | _ => false
                            end) tr).

(** One when [id] is a key of the registry, zero when it is not. *)
Definition registered (v : Viz) (id : nat) : nat :=
  match viz_components v !! id with
  | Some _ => 1
  | None => 0
  end.

(** ** Program points and what they mean *)

(** Between line 22 and line 41; a thread that died in between never
    reaches line 41. *)
Definition holding (p : pc) : bool :=
  match p with
  | PInit _ | PBuild | PUndo _ | PFailed BuildError | PFailed LockError => true
  | _ => false
  end.

(** Line 41 was passed. *)
Definition released (p : pc) : bool :=
  match p with
  | PSetBuilding | PLoop | PRun | PDone => true
  | _ => false
  end.

(** [__init__] has returned: the session is in its caller's hands. *)
Definition created (p : pc) : bool :=
  match p with
  | PAcquire | PInit _ => false
  | _ => true
  end.

(** Line 35 was passed: [self.sim] is set. *)
Definition built (p : pc) : bool :=
  match p with
  | PUndo _ | PSetBuilding | PLoop | PRun | PDone | PFailed LockError => true
  | _ => false
  end.

(** Line 43 was passed: [self.building] is False. *)
Definition running (p : pc) : bool :=
  match p with
  | PLoop | PRun | PDone => true
  | _ => false
  end.

(** [n] full passes of the run loop. *)
Definition passes (s n : nat) : list event :=
  mjoin (replicate n [ECheck s; ERun s]).

(** The events a session's path has produced when it stands at its
    program point with its list of components, after [n] passes of the
    run loop. *)
Definition history (s : nat) (vs : VizSim) (n : nat) : list event :=
  let cs := vs_components vs in
  let init := EAcquire s :: (EComponent s <$> cs) in
  let built := init ++ [ESpawn s; EBuild s] in
  let released := built ++ (EUndo s <$> cs) ++ [ERelease s] in
  let loop := released ++ [ERunning s] ++ passes s n in
  match vs_pc vs with
  | PAcquire => []
  | PInit _ => init
  | PBuild => init ++ [ESpawn s]
  | PFailed BuildError => init ++ [ESpawn s; ERaise s BuildError]
  | PUndo j => built ++ (EUndo s <$> take j cs)
  | PFailed LockError => built ++ (EUndo s <$> cs) ++ [ERaise s LockError]
  | PFailed (KeyError _) => []
  | PSetBuilding => released
  | PLoop => loop
  | PRun => loop ++ [ECheck s]
  | PDone => loop ++ [EExit s]
  end.

(** A sequence of calls on the registry alone. *)
Inductive registry_call :=
  | CallAdd (c : Component)
  | CallPop (id : nat).

(** The organizer after the calls, and how many [pop_component(id)] among
    them returned a component. *)
Fixpoint registry_calls (id : nat) (v : Viz) (calls : list registry_call)
    : Viz * nat :=
  match calls with
  | [] => (v, 0)
  | CallAdd c :: rest => registry_calls id (add v c).1 rest
  | CallPop k :: rest =>
      match pop_component v k with
      | (v', Return _) =>
          let '(v'', n) := registry_calls id v' rest in
          (v'', if decide (k = id) then S n else n)
      | (v', Raise _) => registry_calls id v' rest
      end
  end.

(** The [add] calls among them that register a component under [id]. *)
Definition registrations (id : nat) (calls : list registry_call) : nat :=
  length (List.filter (λ call, match call with
                               | CallAdd c => bool_decide (comp_id c = id)
                               | CallPop _ => false
                               end) calls).

(** ** Invariants of the reachable worlds *)

(** Addresses in use lie below the next free one, and a component sits in
    the registry under its own address. *)
Record heap_inv (w : World) : Prop := {
  heap_sims : ∀ s vs, w_sims w !! s = Some vs → s < w_next w;
  heap_registry : ∀ k c,
    viz_components (w_viz w) !! k = Some c → comp_id c = k ∧ k < w_next w;
  heap_components : ∀ s vs c,
    w_sims w !! s = Some vs → c ∈ vs_components vs →
    comp_id c < w_next w ∧ comp_sim c = s
}.

(** The lock is held when a session is between lines 22 and 41, and two
    sessions never are. *)
Record mutex_inv (w : World) : Prop := {
  mutex_free : ∀ s vs,
    viz_lock (w_viz w) = false → w_sims w !! s = Some vs →
    holding (vs_pc vs) = false;
  mutex_one : ∀ s1 s2 vs1 vs2,
    w_sims w !! s1 = Some vs1 → w_sims w !! s2 = Some vs2 →
    holding (vs_pc vs1) = true → holding (vs_pc vs2) = true → s1 = s2
}.

(** What a session's fields are at its program point. *)
Record session_inv (v : Viz) (vs : VizSim) : Prop := {
  session_building : vs_building vs = negb (running (vs_pc vs));
  session_template : (comp_spec <$> vs_components vs) `prefix_of` viz_template v;
  session_iterator : ∀ i, vs_pc vs = PInit i → i = length (vs_components vs);
  session_fresh : vs_pc vs = PAcquire → vs_components vs = [];
  session_sim : built (vs_pc vs) = true → is_Some (vs_sim vs)
}.

(** The trace of a session's path is the history of its state. *)
Record trace_inv (tr : list event) (w : World) : Prop := {
  trace_history : ∀ s vs,
    w_sims w !! s = Some vs → ∃ n, path s tr = history s vs n;
  trace_unborn : ∀ s, w_sims w !! s = None → path s tr = []
}.

Definition sessions_inv (w : World) : Prop :=
  ∀ s vs, w_sims w !! s = Some vs → session_inv (w_viz w) vs.

(** All of them together. *)
Record world_inv (tr : list event) (w : World) : Prop := {
  inv_heap : heap_inv w;
  inv_mutex : mutex_inv w;
  inv_sessions : sessions_inv w;
  inv_trace : trace_inv tr w
}.

(** The objects the loop of lines 25 to 28 allocates for the entries
    [specs] when the next free address is [a]. *)
Definition new_components (s a : nat) (specs : list ComponentSpec)
    : list Component :=
  imap (λ k spec, mkComponent (a + k) s spec) specs.

(** The components of a session whose [remove_nengo_objects] ran when the
    session stands at its program point. *)
Definition undone (vs : VizSim) : list Component :=
  match vs_pc vs with
  | PUndo j => take j (vs_components vs)
  | PSetBuilding | PLoop | PRun | PDone | PFailed LockError => vs_components vs
  | _ => []
  end.

(** The quanta under way: one when the thread is inside the loop body. *)
Definition in_flight (p : pc) : nat :=
  match p with
  | PRun => 1
  | _ => 0
  end.

End Viz.

(** ** A small instance to run the definitions on

    The model is the list of the addresses of the components whose
    visualization objects are in it; a simulation counts its quanta. *)
Definition toy : Nengo := {|
  Model := list nat;
  Simulation := nat;
  nengo_Simulator := λ _ _, Some 0;
  Simulation_run := λ sm _, S sm;
  component_init := λ c m, comp_id c :: m;
  remove_nengo_objects := λ c m, List.filter (λ a, negb (a =? comp_id c)) m
|}.

(** A simulator class whose constructor raises. *)
Definition failing_Simulator : @Model toy → Q → option (@Simulation toy) :=
  λ _ _, None.

(** [Viz(model)] on an empty model, then [viz.slider()]. *)
Definition toy_world : @World toy :=
  let w := init_world (H := toy) [] default_dt nengo_Simulator in
  with_viz (slider (w_viz w) [ArgObject 7] []).1 w.

(** The same organizer with the failing simulator class. *)
Definition toy_failing_world : @World toy :=
  init_world (H := toy) [] default_dt failing_Simulator.

(** The organizer right after [Viz(model)]. *)
Definition toy_init : @World toy :=
  init_world (H := toy) [] default_dt nengo_Simulator.

(** A first session is created and is still building. *)
Definition toy_building_world : @World toy :=
  match create_sim toy_world with
  | Returned (_, w) => w
  | Blocked => toy_world
  end.

(** Two sessions on one organizer: the second [create_sim()] comes while
    the first session builds, the websocket side pops component 1 twice,
    and both sessions are told to finish. *)
Definition toy_schedule : list action :=
  [ ASlider [ArgObject 7] []; ACreateSim; ASession 0; ASession 0;
    ACreateSim; ASession 0; ASession 0; ASession 0; APopComponent 1;
    ASession 0; ASession 0; APopComponent 1; ASession 0; ASession 2;
    ASession 0; ASession 2; ASession 0; ASession 0; ASession 2; ASession 2;
    AFinish 2; ASession 2; ASession 2; ASession 2; ASession 2; ASession 2;
    ASession 2; ASession 0; AFinish 0; ASession 0; ASession 0 ].

Definition toy_trace : list event :=
  Eval vm_compute in
    match run toy_init toy_schedule with
    | Some (tr, _) => tr
    | None => []
    end.

Definition toy_final : @World toy :=
  match run toy_init toy_schedule with
  | Some (_, w) => w
  | None => toy_init
  end.

(** The failing organizer up to the first line of [runner]. *)
Definition toy_failing_schedule : list action :=
  [ ACreateSim; ASession 0; ASession 0; ASession 0 ].

Definition toy_failing_trace : list event :=
  Eval vm_compute in
    match run toy_failing_world toy_failing_schedule with
    | Some (tr, _) => tr
    | None => []
    end.

Definition toy_failing_built : @World toy :=
  match run toy_failing_world toy_failing_schedule with
  | Some (_, w) => w
  | None => toy_failing_world
  end.

(** * The template, the registry and the model along a trace *)

Section Rest.
Context `{Nengo}.

(** The entries the configuration calls of a trace appended, in order. *)
Definition configs (tr : list event) : list ComponentSpec :=
  omap (λ e, match e with EConfig spec => Some spec | _ => None end) tr.

(** The template is the control entry of [Viz.__init__] followed by the
    entries of the configuration calls made so far. *)
Definition template_inv (tr : list event) (w : World) : Prop :=
  viz_template (w_viz w) = (SimControl, [], []) :: configs tr.

(** What is in the registry sits under its own address, was constructed by
    a session and was not popped since; what was constructed and not
    popped since is in the registry. *)
Record registry_inv (tr : list event) (w : World) : Prop := {
  registry_constructed : ∀ k c,
    viz_components (w_viz w) !! k = Some c →
    comp_id c = k ∧
    ∃ tr1 tr2, tr = tr1 ++ EComponent (comp_sim c) c :: tr2 ∧ pops k tr2 = 0;
  registry_waiting : ∀ tr1 s c tr2,
    tr = tr1 ++ EComponent s c :: tr2 → pops (comp_id c) tr2 = 0 →
    viz_components (w_viz w) !! comp_id c = Some c
}.

(** [self.finished] is set exactly when [finish()] was called. *)
Record finish_inv (tr : list event) (w : World) : Prop := {
  finish_flag : ∀ s vs,
    w_sims w !! s = Some vs → vs_finished vs = true ↔ EFinish s ∈ tr;
  finish_unborn : ∀ s, w_sims w !! s = None → EFinish s ∉ tr
}.

(** The model after the constructors of [cs] ran on it, and after their
    [remove_nengo_objects], both in the order of the list. *)
Definition init_all (cs : list Component) (m : Model) : Model :=
  foldl (λ m c, component_init c m) m cs.
Definition remove_all (cs : list Component) (m : Model) : Model :=
  foldl (λ m c, remove_nengo_objects c m) m cs.

(** What an event does to the model: a component constructor and
    [remove_nengo_objects] change it, nothing else in [viz.py] does. *)
Definition model_event (m : Model) (e : event) : Model :=
  match e with
  | EComponent _ c => component_init c m
  | EUndo _ c => remove_nengo_objects c m
  | _ => m
  end.

(** The model [m] after the events of a trace. *)
Definition model_after (m : Model) (tr : list event) : Model :=
  foldl model_event m tr.

End Rest.

(** An instance in which the model counts the visualization objects in
    it: a constructor adds one, [remove_nengo_objects] takes one away. *)
Definition counting : Nengo := {|
  Model := Z;
  Simulation := Z;
  nengo_Simulator := λ m _, Some m;
  Simulation_run := λ sm _, sm;
  component_init := λ _ m, (m + 1)%Z;
  remove_nengo_objects := λ _ m, (m - 1)%Z
|}.

Definition counting_world : @World counting :=
  let w := init_world (H := counting) 0%Z default_dt nengo_Simulator in
  with_viz (value (w_viz w) [ArgObject 3] []).1 w.

(** * Properties *)

(** ** Case analysis of one step *)

Ltac session_cases Hstep :=
  unfold session_step in Hstep;
  let vs := fresh "vs" in
  let Hvs := fresh "Hvs" in
  let Hpc := fresh "Hpc" in
  match type of Hstep with
  | context [ w_sims ?w !! ?s ] =>
      destruct (w_sims w !! s) as [vs|] eqn:Hvs; simpl in Hstep; [|done];
      destruct (vs_pc vs) eqn:Hpc;
      repeat case_match; simplify_eq
  end.

Ltac step_cases Hstep :=
  match type of Hstep with
  | step ?w ?a = Some _ =>
      destruct a; simpl in Hstep;
      [ simplify_eq
      | session_cases Hstep
      | simplify_eq
      | simplify_eq
      | let vs := fresh "vs" in
        let Hvs := fresh "Hvs" in
        match type of Hstep with
        | context [ w_sims w !! ?s ] =>
            destruct (w_sims w !! s) as [vs|] eqn:Hvs; simpl in Hstep; [|done];
            simplify_eq
        end
      | unfold pop_component in Hstep; repeat case_match; simplify_eq ]
  end.

Ltac lookup_cases :=
  repeat match goal with
  | H : context [ <[_ := _]> _ !! _ ] |- _ => rewrite lookup_insert in H
  | H : context [ alter _ _ _ !! _ ] |- _ => rewrite lookup_alter in H
  | H : context [ delete _ _ !! _ ] |- _ => rewrite lookup_delete in H
  | |- context [ <[_ := _]> _ !! _ ] => rewrite lookup_insert
  | |- context [ alter _ _ _ !! _ ] => rewrite lookup_alter
  | |- context [ delete _ _ !! _ ] => rewrite lookup_delete
  | H : context [ decide (?a = ?b) ] |- _ => destruct (decide (a = b)); subst
  | |- context [ decide (?a = ?b) ] => destruct (decide (a = b)); subst
  | Hvs : ?m !! ?s = _, H : context [ _ <$> ?m !! ?s ] |- _ =>
      rewrite Hvs in H; simpl in H
  | Hvs : ?m !! ?s = _ |- context [ _ <$> ?m !! ?s ] => rewrite Hvs; simpl
  end.

Section Properties.
Context `{Nengo}.

Implicit Types (w : World) (v : Viz) (vs : VizSim) (tr : list event)
  (acts : list action) (s id : nat) (c : Component).

(** ** Schedules *)

Lemma run_app w acts1 acts2 :
  run w (acts1 ++ acts2) =
    '(tr1, w1) ← run w acts1;
    '(tr2, w2) ← run w1 acts2;
    Some (tr1 ++ tr2, w2).
Proof.
  revert w. induction acts1 as [|a acts1 IH]; intros w; simpl.
  - destruct (run w acts2) as [[tr2 w2]|]; done.
  - destruct (step w a) as [[e w']|]; simpl; [|done].
    rewrite IH. destruct (run w' acts1) as [[tr1 w1]|]; simpl; [|done].
    destruct (run w1 acts2) as [[tr2 w2]|]; done.
Qed.

(** Every prefix of a trace is the trace of a prefix of the schedule. *)
Lemma run_split w acts tr1 e tr2 w' :
  run w acts = Some (tr1 ++ e :: tr2, w') →
  ∃ acts1 a acts2 w1 w2,
    acts = acts1 ++ a :: acts2 ∧ run w acts1 = Some (tr1, w1) ∧
    step w1 a = Some (e, w2) ∧ run w2 acts2 = Some (tr2, w').
Proof.
  revert w tr1. induction acts as [|a acts IH]; intros w tr1 Hrun; simpl in Hrun.
  - destruct tr1; simplify_eq.
  - destruct (step w a) as [[e0 w0]|] eqn:Hstep; simpl in Hrun; [|done].
    destruct (run w0 acts) as [[tr0 w0']|] eqn:Hrest; simpl in Hrun; [|done].
    destruct tr1 as [|e1 tr1]; simplify_eq/=.
    + exists [], a, acts, w, w0. done.
    + destruct (IH _ _ Hrest) as (acts1 & a' & acts2 & w1 & w2 & -> & H1 & H2 & H3).
      exists (a :: acts1), a', acts2, w1, w2. simpl. rewrite Hstep. simpl.
      rewrite H1. done.
Qed.

(** Induction over a schedule with the trace that led to its start. *)
Lemma run_invariant (P : list event → World → Prop) :
  (∀ tr w a e w', P tr w → step w a = Some (e, w') → P (tr ++ [e]) w') →
  ∀ acts tr0 w0 tr w,
    P tr0 w0 → run w0 acts = Some (tr, w) → P (tr0 ++ tr) w.
Proof.
  intros Hstep. induction acts as [|a acts IH]; intros tr0 w0 tr w HP Hrun;
    simpl in Hrun.
  - simplify_eq. by rewrite app_nil_r.
  - destruct (step w0 a) as [[e w1]|] eqn:Hs; simpl in Hrun; [|done].
    destruct (run w1 acts) as [[tr1 w2]|] eqn:Hr; simpl in Hrun; [|done].
    simplify_eq. rewrite (cons_middle e), app_assoc.
    eapply IH; [|done]. by eapply Hstep.
Qed.

(** ** The registry *)

Lemma pop_component_Some v id c :
  viz_components v !! id = Some c →
  pop_component v id = (set_components (delete id (viz_components v)) v, Return c).
Proof. intros Hc. unfold pop_component. by rewrite Hc. Qed.

Lemma pop_component_None v id :
  viz_components v !! id = None →
  pop_component v id = (v, Raise (KeyError id)).
Proof. intros Hc. unfold pop_component. by rewrite Hc. Qed.

Lemma pop_component_gone v id :
  viz_components (pop_component v id).1 !! id = None.
Proof.
  unfold pop_component. destruct (viz_components v !! id) eqn:Hc; simpl; [|done].
  apply lookup_delete_eq.
Qed.

(** Every pop of [id] that returns uses up one registration of [id]. *)
Lemma registered_add v c id :
  registered (add v c).1 id =
    if decide (comp_id c = id) then 1 else registered v id.
Proof.
  unfold registered, add. simpl. case_decide as Hid.
  - subst. by rewrite lookup_insert_eq.
  - by rewrite lookup_insert_ne.
Qed.

Lemma registrations_cons id call calls :
  registrations id (call :: calls) =
    match call with
    | CallAdd c => if decide (comp_id c = id) then 1 else 0
    | CallPop _ => 0
    end + registrations id calls.
Proof.
  unfold registrations. simpl. destruct call as [c|k]; [|done].
  case_bool_decide; case_decide; done.
Qed.

Lemma registry_calls_count id v calls :
  (registry_calls id v calls).2 + registered (registry_calls id v calls).1 id
    ≤ registered v id + registrations id calls.
Proof.
  revert v. induction calls as [|[c|k] calls IH]; intros v.
  - simpl. unfold registrations. simpl. lia.
  - rewrite registrations_cons.
    change (registry_calls id v (CallAdd c :: calls))
      with (registry_calls id (add v c).1 calls).
    specialize (IH (add v c).1). rewrite registered_add in IH.
    case_decide; lia.
  - rewrite registrations_cons. simpl. unfold pop_component.
    destruct (viz_components v !! k) as [c|] eqn:Hk; [|by apply IH].
    specialize (IH (set_components (delete k (viz_components v)) v)).
    destruct (registry_calls id _ calls) as [v'' n] eqn:Hrc. simpl in *.
    unfold registered in IH at 2. simpl in IH. unfold registered at 2.
    case_decide as Hki.
    + subst k. rewrite lookup_delete_eq in IH. rewrite Hk. lia.
    + rewrite lookup_delete_ne in IH by done. lia.
Qed.

Lemma heap_inv_init model dt Simulator : heap_inv (init_world model dt Simulator).
Proof. split; simpl; intros *; rewrite ?lookup_empty; done. Qed.

Lemma heap_inv_step w a e w' :
  heap_inv w → step w a = Some (e, w') → heap_inv w'.
Proof.
  intros [Hs Hr Hc] Hstep.
  step_cases Hstep.
  all: split; simpl.
  all: intros.
  all: lookup_cases.
  all: simplify_eq/=.
  all: set_unfold.
  all: naive_solver (eauto with lia).
Qed.


Lemma mutex_inv_init model dt Simulator : mutex_inv (init_world model dt Simulator).
Proof. split; simpl; intros *; rewrite ?lookup_empty; done. Qed.

Lemma mutex_inv_step w a e w' :
  mutex_inv w → step w a = Some (e, w') → mutex_inv w'.
Proof.
  intros [Hf Ho] Hstep.
  step_cases Hstep.
  all: split; simpl.
  all: intros.
  all: lookup_cases.
  all: simplify_eq/=.
  all: try done.
  all: repeat match goal with
       | Hl : viz_lock (w_viz ?w) = false, Hi : w_sims ?w !! _ = Some _ |- _ =>
           learn_hyp (Hf _ _ Hl Hi)
       | Hi : w_sims ?w !! _ = Some _ |- _ => learn_hyp (Hf _ _ eq_refl Hi)
       | Hi : w_sims ?w !! _ = Some _, Hj : w_sims ?w !! _ = Some _ |- _ =>
           learn_hyp (Ho _ _ _ _ Hi Hj)
       end.
  all: repeat match goal with
       | Hpc : vs_pc ?vs = _, H : context [ vs_pc ?vs ] |- _ =>
           rewrite Hpc in H; simpl in H
       | Hpc : vs_pc ?vs = _ |- context [ vs_pc ?vs ] => rewrite Hpc; simpl
       end.
  all: repeat match goal with
       | H : true = true → _ |- _ => specialize (H eq_refl)
       | H : ?a = ?b → _, H' : ?a = ?b |- _ => specialize (H H')
       end.
  all: try done.
  all: try congruence.
  destruct (holding (vs_pc vs0)); [|done]. by destruct n; auto.
Qed.


Lemma sessions_inv_init model dt Simulator :
  sessions_inv (init_world model dt Simulator).
Proof. intros s vs. simpl. by rewrite lookup_empty. Qed.

Lemma prefix_snoc_lookup {A} (l t : list A) x :
  l `prefix_of` t → t !! length l = Some x → l ++ [x] `prefix_of` t.
Proof.
  intros [k ->] Hx. rewrite lookup_app_r in Hx; [|lia].
  rewrite Nat.sub_diag in Hx. destruct k as [|y k]; simplify_eq/=.
  exists k. by rewrite <-app_assoc.
Qed.

Lemma sessions_inv_step w a e w' :
  sessions_inv w → step w a = Some (e, w') → sessions_inv w'.
Proof.
  intros Hinv Hstep.
  step_cases Hstep.
  all: intros s' vs'; simpl.
  all: intros.
  all: lookup_cases.
  all: simplify_eq/=.
  all: repeat match goal with
       | Hi : w_sims ?w !! _ = Some _ |- _ => learn_hyp (Hinv _ _ Hi)
       end.
  all: repeat match goal with Hs : session_inv _ _ |- _ => destruct Hs end.
  all: split; simpl.
  all: repeat match goal with
       | Hpc : vs_pc ?vs = _, H : context [ vs_pc ?vs ] |- _ =>
           rewrite Hpc in H; simpl in H
       | Hpc : vs_pc ?vs = _ |- context [ vs_pc ?vs ] => rewrite Hpc; simpl
       end.
  all: repeat match goal with
       | H : ?a = ?a → _ |- _ => specialize (H eq_refl)
       | H : ∀ i, PInit ?j = PInit i → _ |- _ => specialize (H _ eq_refl)
       end.
  all: try done.
  all: try congruence.
  all: try by apply prefix_app_r.
  all: try by (intros; simplify_eq; rewrite ?length_app; simpl; lia).
  all: try by (rewrite fmap_app; apply prefix_snoc_lookup; simpl; congruence).
  all: try by (intros; simplify_eq/=; eauto).
  all: try by (simplify_eq/=; apply prefix_nil).
  - intros i ?. simplify_eq. by rewrite session_fresh0.
  - rewrite fmap_app. apply prefix_snoc_lookup; [done|].
    by rewrite length_fmap, <-session_iterator0.
  - intros _. destruct session_sim0 as [sm ->]. by eexists.
Qed.


(** ** Traces and histories *)

Lemma path_app s tr1 tr2 : path s (tr1 ++ tr2) = path s tr1 ++ path s tr2.
Proof. apply List.filter_app. Qed.

Lemma passes_snoc s n : passes s (S n) = passes s n ++ [ECheck s; ERun s].
Proof.
  induction n as [|n IH]; [done|].
  change (passes s (S (S n))) with ([ECheck s; ERun s] ++ passes s (S n)).
  rewrite IH at 1.
  change (passes s (S n)) with ([ECheck s; ERun s] ++ passes s n).
  by rewrite <-app_assoc.
Qed.

Lemma trace_inv_init model dt Simulator :
  trace_inv [] (init_world model dt Simulator).
Proof. split; simpl; intros *; rewrite ?lookup_empty; done. Qed.

Lemma trace_inv_step tr w a e w' :
  heap_inv w → sessions_inv w → trace_inv tr w →
  step w a = Some (e, w') → trace_inv (tr ++ [e]) w'.
Proof.
  intros Hheap Hsess [Hh Hu] Hstep.
  step_cases Hstep.
  all: split; simpl.
  all: intros s' **.
  all: lookup_cases.
  all: simplify_eq/=.
  all: rewrite path_app; simpl.
  all: rewrite ?bool_decide_eq_true_2 by done.
  all: rewrite ?bool_decide_eq_false_2 by done.
  all: rewrite ?app_nil_r.
  all: try by eauto.
  all: try match goal with
       | Hvs : w_sims _ !! ?s = Some ?vs |- _ =>
           destruct (Hh _ _ Hvs) as [n Hn]; try rewrite Hn;
           unfold history in *; simpl in *
       end.
  all: repeat match goal with
       | Hpc : vs_pc ?vs = _, H : context [ vs_pc ?vs ] |- _ =>
           rewrite Hpc in H; simpl in H
       | Hpc : vs_pc ?vs = _ |- context [ vs_pc ?vs ] => rewrite Hpc; simpl
       end.
  all: try by (exists n; rewrite <-?app_assoc; simpl; rewrite <-?app_assoc).
  - exists 0. apply Hu. destruct (w_sims w !! w_next w) as [vs|] eqn:Hvs; [|done].
    apply (heap_sims _ Hheap) in Hvs. lia.
  - exists 0. by rewrite (session_fresh _ _ (Hsess _ _ Hvs) Hpc).
  - exists 0. by rewrite fmap_app.
  - exists 0. erewrite take_S_r by done. by rewrite fmap_app, !app_assoc.
  - exists 0. rewrite take_ge by by apply lookup_ge_None.
    by rewrite <-!app_assoc.
  - exists 0. rewrite take_ge by by apply lookup_ge_None.
    by rewrite <-!app_assoc.
  - exists 0. by rewrite <-?app_assoc.
  - exists (S n). rewrite passes_snoc. rewrite <-?app_assoc. simpl.
    by rewrite <-?app_assoc.
Qed.


Lemma pops_app id tr1 tr2 : pops id (tr1 ++ tr2) = pops id tr1 + pops id tr2.
Proof. unfold pops. by rewrite List.filter_app, length_app. Qed.


(** ** The invariants hold along every schedule *)

Lemma world_inv_init model dt Simulator :
  world_inv [] (init_world model dt Simulator).
Proof.
  split; auto using heap_inv_init, mutex_inv_init, sessions_inv_init,
    trace_inv_init.
Qed.

Lemma world_inv_step tr w a e w' :
  world_inv tr w → step w a = Some (e, w') → world_inv (tr ++ [e]) w'.
Proof.
  intros [] Hstep.
  split; eauto using heap_inv_step, mutex_inv_step, sessions_inv_step,
    trace_inv_step.
Qed.

Lemma world_inv_run acts tr0 w0 tr w :
  world_inv tr0 w0 → run w0 acts = Some (tr, w) → world_inv (tr0 ++ tr) w.
Proof. apply (run_invariant world_inv). apply world_inv_step. Qed.

Lemma world_inv_reachable model dt Simulator acts tr w :
  run (init_world model dt Simulator) acts = Some (tr, w) → world_inv tr w.
Proof.
  intros Hrun.
  apply (world_inv_run acts [] _ tr w (world_inv_init model dt Simulator) Hrun).
Qed.


(** ** A session's list of components is fixed once [__init__] returned *)

Lemma components_fixed_step w a e w' s vs :
  w_sims w !! s = Some vs → created (vs_pc vs) = true → s < w_next w →
  step w a = Some (e, w') →
  ∃ vs', w_sims w' !! s = Some vs' ∧ vs_components vs' = vs_components vs ∧
         created (vs_pc vs') = true ∧ s < w_next w'.
Proof.
  intros Hs Hc Hlt Hstep.
  step_cases Hstep; simpl.
  all: lookup_cases; simplify_eq/=.
  all: try lia.
  all: repeat match goal with
       | Hpc : vs_pc ?vs = _, H : context [ vs_pc ?vs ] |- _ =>
           rewrite Hpc in H; simpl in H
       end.
  all: try done.
  all: try by (eexists; split_and!; [done..|simpl; lia]).
  all: try by (eexists; split_and!; [done|done|simpl; by rewrite ?Hpc|simpl; lia]).
Qed.

Lemma components_fixed_run acts w tr w' s vs :
  w_sims w !! s = Some vs → created (vs_pc vs) = true → s < w_next w →
  run w acts = Some (tr, w') →
  ∃ vs', w_sims w' !! s = Some vs' ∧ vs_components vs' = vs_components vs ∧
         created (vs_pc vs') = true ∧ s < w_next w'.
Proof.
  revert w tr vs. induction acts as [|a acts IH]; intros w tr vs Hs Hc Hlt Hrun;
    simpl in Hrun.
  - simplify_eq. eauto.
  - destruct (step w a) as [[e w1]|] eqn:Hstep; simpl in Hrun; [|done].
    destruct (run w1 acts) as [[tr1 w2]|] eqn:Hrest; simpl in Hrun; [|done].
    simplify_eq.
    destruct (components_fixed_step _ _ _ _ _ _ Hs Hc Hlt Hstep)
      as (vs1 & Hs1 & Hcs1 & Hc1 & Hlt1).
    destruct (IH _ _ _ Hs1 Hc1 Hlt1 Hrest) as (vs2 & ? & ? & ? & ?).
    exists vs2. split_and!; [done|congruence|done|done].
Qed.

(** ** The loop of [__init__] *)

Lemma new_components_cons s a spec specs :
  new_components s a (spec :: specs) =
    mkComponent a s spec :: new_components s (S a) specs.
Proof.
  unfold new_components. simpl. rewrite Nat.add_0_r. f_equal.
  apply imap_ext. intros k x _. simpl. f_equal. lia.
Qed.

Lemma new_components_spec s a specs :
  comp_spec <$> new_components s a specs = specs.
Proof.
  revert a. induction specs as [|spec specs IH]; intros a; [done|].
  rewrite new_components_cons. simpl. by rewrite IH.
Qed.

Lemma new_components_id s a specs :
  comp_id <$> new_components s a specs = seq a (length specs).
Proof.
  revert a. induction specs as [|spec specs IH]; intros a; [done|].
  rewrite new_components_cons. simpl. by rewrite IH.
Qed.

Lemma new_components_sim s a specs c :
  c ∈ new_components s a specs → comp_sim c = s.
Proof.
  revert a. induction specs as [|spec specs IH]; intros a.
  - by intros ?%elem_of_nil.
  - rewrite new_components_cons. intros [->|?]%elem_of_cons; [done|]. eauto.
Qed.

Lemma new_components_range s a specs c :
  c ∈ new_components s a specs → a ≤ comp_id c < a + length specs.
Proof.
  intros Hc. apply (list_elem_of_fmap_2 comp_id) in Hc.
  rewrite new_components_id in Hc. apply elem_of_seq in Hc. lia.
Qed.

(** What the loop leaves behind when it is entered at index [i] with the
    entries [specs] still to come. *)
Lemma VizSim_init_loop_spec specs i s w vs :
  w_sims w !! s = Some vs →
  let w' := VizSim_init_loop i specs s w in
  let cs := new_components s (w_next w) specs in
  w_next w' = w_next w + length specs ∧
  viz_template (w_viz w') = viz_template (w_viz w) ∧
  viz_lock (w_viz w') = viz_lock (w_viz w) ∧
  (∀ s', s' ≠ s → w_sims w' !! s' = w_sims w !! s') ∧
  (∀ c, c ∈ cs → viz_components (w_viz w') !! comp_id c = Some c) ∧
  (∀ k, ¬ (w_next w ≤ k < w_next w + length specs) →
        viz_components (w_viz w') !! k = viz_components (w_viz w) !! k) ∧
  ∃ vs', w_sims w' !! s = Some vs' ∧
         vs_components vs' = vs_components vs ++ cs ∧
         vs_building vs' = vs_building vs ∧
         vs_finished vs' = vs_finished vs ∧
         vs_sim vs' = vs_sim vs ∧
         vs_pc vs' = match specs with
                     | [] => vs_pc vs
                     | _ => PInit (i + length specs)
                     end.
Proof.
  revert i w vs. induction specs as [|spec specs IH]; intros i w vs Hs.
  - simpl. split_and!; try done; try lia.
    + by intros c ?%elem_of_nil.
    + exists vs. by rewrite app_nil_r.
  - set (c0 := mkComponent (w_next w) s spec).
    set (w1 := (new_component i spec s w).2).
    assert (Hs1 : w_sims w1 !! s =
                  Some (set_pc (PInit (S i)) (append_component c0 vs))).
    { simpl. by rewrite lookup_alter_eq, Hs. }
    destruct (IH (S i) w1 _ Hs1)
      as (Hn & Ht & Hl & Ho & Hreg & Hkeep & vs' & Hs' & Hcs & Hb & Hf & Hsim & Hpc).
    change (VizSim_init_loop i (spec :: specs) s w)
      with (VizSim_init_loop (S i) specs s w1).
    rewrite new_components_cons. fold c0.
    cbn zeta. split_and!.
    + rewrite Hn. simpl. lia.
    + by rewrite Ht.
    + by rewrite Hl.
    + intros s' Hne. rewrite Ho by done. simpl. by rewrite lookup_alter_ne.
    + intros c [->|Hc]%elem_of_cons.
      * rewrite Hkeep by (simpl; lia). simpl. by rewrite lookup_insert_eq.
      * by apply Hreg.
    + intros k Hk. simpl in Hk. rewrite Hkeep by (unfold w1; simpl; lia).
      simpl. rewrite lookup_insert_ne by lia. done.
    + exists vs'. split_and!; try done.
      * rewrite Hcs. simpl. by rewrite <-app_assoc.
      * rewrite Hpc. destruct specs; simpl; f_equal; lia.
Qed.


(** ** Reading a session's program point off the trace *)

Lemma elem_of_path s e tr : e ∈ path s tr ↔ e ∈ tr ∧ on_path s e = true.
Proof.
  unfold path. rewrite !list_elem_of_In, List.filter_In. done.
Qed.

Lemma undos_app s tr1 tr2 : undos s (tr1 ++ tr2) = undos s tr1 ++ undos s tr2.
Proof. apply omap_app. Qed.

Lemma undos_path s tr : undos s (path s tr) = undos s tr.
Proof.
  induction tr as [|e tr IH]; [done|]. simpl.
  destruct (on_path s e) eqn:He; simpl; rewrite IH.
  - done.
  - destruct e; simpl in *; try done.
    case_decide; [|done]. subst. by rewrite bool_decide_eq_true_2 in He.
Qed.

Lemma undos_fmap_undo s cs : undos s (EUndo s <$> cs) = cs.
Proof.
  unfold undos. induction cs as [|c cs IH]; [done|]. csimpl.
  rewrite decide_True by done. csimpl. by rewrite IH.
Qed.

Lemma undos_fmap_component s cs : undos s (EComponent s <$> cs) = [].
Proof. induction cs as [|c cs IH]; [done|]. done. Qed.

Lemma undos_passes s n : undos s (passes s n) = [].
Proof. induction n as [|n IH]; [done|]. done. Qed.

Lemma elem_of_passes s n e : e ∈ passes s n → e = ECheck s ∨ e = ERun s.
Proof.
  induction n as [|n IH]; [by intros ?%elem_of_nil|].
  change (passes s (S n)) with ([ECheck s; ERun s] ++ passes s n).
  set_solver.
Qed.

Lemma runs_app s tr1 tr2 : runs s (tr1 ++ tr2) = runs s tr1 + runs s tr2.
Proof. unfold runs. by rewrite List.filter_app, length_app. Qed.

Lemma runs_zero s tr : runs s tr = 0 ↔ ERun s ∉ tr.
Proof.
  induction tr as [|e tr IH]; simpl.
  - unfold runs. simpl. split; [intros _; apply not_elem_of_nil|done].
  - rewrite not_elem_of_cons. unfold runs in *. simpl.
    case_bool_decide; simpl.
    + split; [lia|]. intros []. done.
    + rewrite IH. intuition congruence.
Qed.


(** What the history of a session at a program point contains. *)
Lemma history_facts s vs n :
  let h := history s vs n in
  let p := vs_pc vs in
  (EAcquire s ∈ h ↔ holding p = true ∨ released p = true) ∧
  (ERelease s ∈ h ↔ released p = true) ∧
  (EBuild s ∈ h ↔ built p = true) ∧
  (ERunning s ∈ h ↔ running p = true) ∧
  (ERun s ∈ h → running p = true) ∧
  (∀ c, EComponent s c ∈ h ↔
        c ∈ vs_components vs ∧ (holding p = true ∨ released p = true)) ∧
  (ESpawn s ∈ h ↔ created p = true ∧ (holding p = true ∨ released p = true)).
Proof.
  pose proof (elem_of_passes s n) as Hpasses.
  unfold history. simpl.
  destruct (vs_pc vs) as [| | | | | | | |[]]; simpl.
  all: split_and!; try split.
  all: try done.
  all: set_unfold.
  all: naive_solver.
Qed.

Lemma undos_history s vs n : undos s (history s vs n) = undone vs.
Proof.
  unfold history, undone.
  destruct (vs_pc vs) as [| | | | | | | |[]]; simpl; try done.
  all: rewrite ?undos_app; simpl.
  all: rewrite ?undos_app, ?undos_fmap_component, ?undos_fmap_undo,
         ?undos_passes; simpl.
  all: rewrite ?app_nil_r; try done.
Qed.

(** The same facts read off the trace of a reachable world. *)
Lemma on_path_elem_of s e tr :
  on_path s e = true → e ∈ tr ↔ e ∈ path s tr.
Proof. rewrite elem_of_path. tauto. Qed.

Lemma trace_facts tr w s vs :
  world_inv tr w → w_sims w !! s = Some vs →
  (EAcquire s ∈ tr ↔ holding (vs_pc vs) = true ∨ released (vs_pc vs) = true) ∧
  (ERelease s ∈ tr ↔ released (vs_pc vs) = true) ∧
  (EBuild s ∈ tr ↔ built (vs_pc vs) = true) ∧
  (ERunning s ∈ tr ↔ running (vs_pc vs) = true) ∧
  (ERun s ∈ tr → running (vs_pc vs) = true) ∧
  (∀ c, EComponent s c ∈ tr ↔
        c ∈ vs_components vs ∧
        (holding (vs_pc vs) = true ∨ released (vs_pc vs) = true)) ∧
  (ESpawn s ∈ tr ↔
     created (vs_pc vs) = true ∧
     (holding (vs_pc vs) = true ∨ released (vs_pc vs) = true)) ∧
  undos s tr = undone vs.
Proof.
  intros Hinv Hs.
  destruct (trace_history _ _ (inv_trace _ _ Hinv) _ _ Hs) as [n Hn].
  pose proof (history_facts s vs n) as Hf. simpl in Hf. rewrite <-Hn in Hf.
  rewrite <-undos_path, Hn, undos_history.
  rewrite !(on_path_elem_of s _ tr)
    by (simpl; by rewrite bool_decide_eq_true_2).
  destruct Hf as (? & ? & ? & ? & ? & Hc & ?).
  split_and!; try done.
  intros c. rewrite (on_path_elem_of s)
    by (simpl; by rewrite bool_decide_eq_true_2).
  apply Hc.
Qed.

Lemma trace_unborn_facts tr w s e :
  world_inv tr w → w_sims w !! s = None → on_path s e = true → e ∉ tr.
Proof.
  intros Hinv Hs He Hin. apply (on_path_elem_of s) in Hin; [|done].
  rewrite (trace_unborn _ _ (inv_trace _ _ Hinv) _ Hs) in Hin.
  by apply elem_of_nil in Hin.
Qed.

(** A session holds the lock on the trace exactly when its program point
    lies between lines 22 and 41. *)
Lemma holds_lock_holding tr w s :
  world_inv tr w →
  holds_lock s tr ↔ ∃ vs, w_sims w !! s = Some vs ∧ holding (vs_pc vs) = true.
Proof.
  intros Hinv. unfold holds_lock. split.
  - intros [Ha Hr]. destruct (w_sims w !! s) as [vs|] eqn:Hs.
    + exists vs. split; [done|].
      destruct (trace_facts _ _ _ _ Hinv Hs) as (HA & HR & _).
      apply HA in Ha. destruct Ha as [?|Hrel]; [done|].
      destruct Hr. by apply HR.
    + destruct (trace_unborn_facts _ _ _ (EAcquire s) Hinv Hs); [|done].
      simpl. by rewrite bool_decide_eq_true_2.
  - intros (vs & Hs & Hh).
    destruct (trace_facts _ _ _ _ Hinv Hs) as (HA & HR & _).
    split; [apply HA; by left|].
    rewrite HR. destruct (vs_pc vs) as [| | | | | | | |[]]; done.
Qed.


(** ** The thread body run on its own *)

Lemma set_pc_same vs : set_pc (vs_pc vs) vs = vs.
Proof. by destruct vs. Qed.

Lemma run_cons_Some w a acts e w1 tr w2 :
  step w a = Some (e, w1) → run w1 acts = Some (tr, w2) →
  run w (a :: acts) = Some (e :: tr, w2).
Proof. intros Hstep Hrun. cbn [run]. rewrite Hstep. simpl. by rewrite Hrun. Qed.

Lemma run_app_Some w acts1 acts2 tr1 w1 tr2 w2 :
  run w acts1 = Some (tr1, w1) → run w1 acts2 = Some (tr2, w2) →
  run w (acts1 ++ acts2) = Some (tr1 ++ tr2, w2).
Proof. intros H1 H2. rewrite run_app, H1. simpl. by rewrite H2. Qed.

(** The loop of lines 38 and 39 from index [j], with [k] components left. *)
Lemma undo_loop_run k w s vs j :
  w_sims w !! s = Some vs → vs_pc vs = PUndo j →
  j + k = length (vs_components vs) →
  ∃ w',
    run w (replicate k (ASession s)) =
      Some (EUndo s <$> drop j (vs_components vs), w') ∧
    viz_lock (w_viz w') = viz_lock (w_viz w) ∧
    viz_model (w_viz w') =
      foldl (λ m c, remove_nengo_objects c m) (viz_model (w_viz w))
            (drop j (vs_components vs)) ∧
    w_sims w' !! s = Some (set_pc (PUndo (j + k)) vs).
Proof.
  revert w vs j. induction k as [|k IH]; intros w vs j Hs Hpc Hlen.
  - exists w. rewrite drop_ge by lia. simpl. split_and!; try done.
    rewrite Nat.add_0_r, <-Hpc, set_pc_same. done.
  - destruct (vs_components vs !! j) as [c|] eqn:Hc;
      [|apply lookup_ge_None in Hc; lia].
    set (w1 := with_sim s (set_pc (PUndo (S j)) vs)
                 (with_viz (set_model (remove_nengo_objects c (viz_model (w_viz w)))
                                      (w_viz w)) w)).
    assert (Hstep : step w (ASession s) = Some (EUndo s c, w1)).
    { simpl. unfold session_step. rewrite Hs. simpl. rewrite Hpc, Hc. done. }
    destruct (IH w1 (set_pc (PUndo (S j)) vs) (S j)) as (w' & Hrun & Hl & Hm & Hs').
    { simpl. by rewrite lookup_insert_eq. }
    { done. }
    { simpl. lia. }
    exists w'. simpl in Hrun, Hl, Hm, Hs'.
    rewrite (drop_S _ c j) by done.
    change (replicate (S k) (ASession s))
      with (ASession s :: replicate k (ASession s)).
    split_and!; try done.
    { by apply (run_cons_Some _ _ _ _ w1). }
    rewrite Hs'. by replace (j + S k) with (S j + k) by lia.
Qed.

(** [runner] from its first line to the test of the run loop, when the
    simulator builds. *)
Lemma runner_build_run w s vs sm :
  w_sims w !! s = Some vs → vs_pc vs = PBuild →
  viz_lock (w_viz w) = true →
  viz_Simulator (w_viz w) (viz_model (w_viz w)) (vs_dt vs) = Some sm →
  ∃ w',
    run w (replicate (3 + length (vs_components vs)) (ASession s)) =
      Some (EBuild s :: (EUndo s <$> vs_components vs) ++
              [ERelease s; ERunning s], w') ∧
    viz_lock (w_viz w') = false ∧
    viz_model (w_viz w') =
      foldl (λ m c, remove_nengo_objects c m) (viz_model (w_viz w))
            (vs_components vs) ∧
    w_sims w' !! s =
      Some (set_pc PLoop (set_building false (set_sim (Some sm) vs))).
Proof.
  intros Hs Hpc Hlock Hsim.
  set (n := length (vs_components vs)).
  set (vs1 := set_pc (PUndo 0) (set_sim (Some sm) vs)).
  set (w1 := with_sim s vs1 w).
  assert (Hstep1 : step w (ASession s) = Some (EBuild s, w1)).
  { simpl. unfold session_step. rewrite Hs. simpl. by rewrite Hpc, Hsim. }
  destruct (undo_loop_run n w1 s vs1 0) as (w2 & Hrun2 & Hl2 & Hm2 & Hs2).
  { simpl. by rewrite lookup_insert_eq. }
  { done. }
  { done. }
  simpl in Hrun2, Hl2, Hm2, Hs2. rewrite drop_0 in Hrun2, Hm2.
  set (vs2 := set_pc (PUndo n) vs1) in *.
  set (w3 := with_sim s (set_pc PSetBuilding vs2)
               (with_viz (set_lock false (w_viz w2)) w2)).
  assert (Hstep3 : step w2 (ASession s) = Some (ERelease s, w3)).
  { simpl. unfold session_step. rewrite Hs2. simpl.
    rewrite (proj2 (lookup_ge_None (vs_components vs) n)) by done.
    by rewrite Hl2, Hlock. }
  set (w4 := with_sim s (set_pc PLoop (set_building false (set_pc PSetBuilding vs2))) w3).
  assert (Hstep4 : step w3 (ASession s) = Some (ERunning s, w4)).
  { simpl. unfold session_step. simpl. by rewrite lookup_insert_eq. }
  exists w4.
  replace (replicate (3 + n) (ASession s))
    with ([ASession s] ++ replicate n (ASession s) ++ [ASession s; ASession s]).
  2:{ replace (3 + n) with (1 + (n + 2)) by lia.
      by rewrite !replicate_add. }
  split_and!; [|done|done|by apply lookup_insert_eq].
  eapply run_cons_Some; [exact Hstep1|].
  eapply run_app_Some; [exact Hrun2|].
  eapply run_cons_Some; [exact Hstep3|].
  eapply run_cons_Some; [exact Hstep4|]. done.
Qed.

(** The run loop, one action at a time. *)
Lemma loop_step w s vs :
  w_sims w !! s = Some vs → vs_pc vs = PLoop →
  session_step w s =
    if vs_finished vs
    then Some (EExit s, with_sim s (set_pc PDone vs) w)
    else Some (ECheck s, with_sim s (set_pc PRun vs) w).
Proof. intros Hs Hpc. unfold session_step. rewrite Hs. simpl. by rewrite Hpc. Qed.

Lemma run_step w s vs :
  w_sims w !! s = Some vs → vs_pc vs = PRun →
  session_step w s =
    Some (ERun s,
          with_sim s
            (set_pc PLoop
               (set_sim ((λ sm, Simulation_run sm quantum) <$> vs_sim vs) vs))
            w).
Proof. intros Hs Hpc. unfold session_step. rewrite Hs. simpl. by rewrite Hpc. Qed.


(** ** After [finish()] *)

Lemma finished_step w a e w' s vs :
  w_sims w !! s = Some vs → vs_finished vs = true → s < w_next w →
  step w a = Some (e, w') →
  ∃ vs', w_sims w' !! s = Some vs' ∧ vs_finished vs' = true ∧ s < w_next w' ∧
         runs s [e] + in_flight (vs_pc vs') ≤ in_flight (vs_pc vs).
Proof.
  intros Hs Hf Hlt Hstep.
  step_cases Hstep; simpl.
  all: lookup_cases; simplify_eq/=.
  all: try lia.
  all: unfold runs; simpl.
  all: try case_bool_decide; simplify_eq/=.
  all: repeat match goal with
       | Hpc : vs_pc ?vs = _ |- _ => rewrite ?Hpc in *; clear Hpc
       end.
  all: try by (eexists; split_and!; [done|done|simpl; lia|simpl; lia]).
  all: try congruence.
Qed.

Lemma finished_run acts w tr w' s vs :
  w_sims w !! s = Some vs → vs_finished vs = true → s < w_next w →
  run w acts = Some (tr, w') →
  runs s tr ≤ in_flight (vs_pc vs) ∧
  ∃ vs', w_sims w' !! s = Some vs' ∧ vs_finished vs' = true.
Proof.
  revert w tr vs. induction acts as [|a acts IH]; intros w tr vs Hs Hf Hlt Hrun;
    simpl in Hrun.
  - simplify_eq. split; [unfold runs; simpl; lia|eauto].
  - destruct (step w a) as [[e w1]|] eqn:Hstep; simpl in Hrun; [|done].
    destruct (run w1 acts) as [[tr1 w2]|] eqn:Hrest; simpl in Hrun; [|done].
    simplify_eq.
    destruct (finished_step _ _ _ _ _ _ Hs Hf Hlt Hstep)
      as (vs1 & Hs1 & Hf1 & Hlt1 & Hle).
    destruct (IH _ _ _ Hs1 Hf1 Hlt1 Hrest) as [Hle' Hex].
    split; [|done].
    change (e :: tr1) with ([e] ++ tr1). rewrite runs_app. lia.
Qed.


(** ** Instants of a schedule *)

(** The world in which an event of a reachable trace happened. *)
Lemma reach_split model dt Simulator acts tr1 e tr2 w :
  run (init_world model dt Simulator) acts = Some (tr1 ++ e :: tr2, w) →
  ∃ w1 a w2 acts2,
    world_inv tr1 w1 ∧ step w1 a = Some (e, w2) ∧
    world_inv (tr1 ++ [e]) w2 ∧
    run w1 (a :: acts2) = Some (e :: tr2, w) ∧
    run w2 acts2 = Some (tr2, w).
Proof.
  intros Hrun.
  destruct (run_split _ _ _ _ _ _ Hrun)
    as (acts1 & a & acts2 & w1 & w2 & -> & H1 & H2 & H3).
  exists w1, a, w2, acts2.
  pose proof (world_inv_reachable _ _ _ _ _ _ H1) as Hinv1.
  split_and!; try done.
  - by eapply world_inv_step.
  - by eapply run_cons_Some.
Qed.

(** Where a session stood when it produced an event. *)
Lemma step_event_pc w a e w' :
  step w a = Some (e, w') →
  match e with
  | EAcquire s =>
      ∃ vs, w_sims w !! s = Some vs ∧ vs_pc vs = PAcquire ∧
            viz_lock (w_viz w) = false
  | EComponent s c =>
      ∃ vs i, w_sims w !! s = Some vs ∧ vs_pc vs = PInit i ∧
              comp_id c = w_next w
  | ESpawn s => ∃ vs i, w_sims w !! s = Some vs ∧ vs_pc vs = PInit i
  | EBuild s | ERaise s BuildError =>
      ∃ vs, w_sims w !! s = Some vs ∧ vs_pc vs = PBuild
  | EUndo s c =>
      ∃ vs j, w_sims w !! s = Some vs ∧ vs_pc vs = PUndo j ∧
              vs_components vs !! j = Some c
  | ERelease s | ERaise s LockError =>
      ∃ vs j, w_sims w !! s = Some vs ∧ vs_pc vs = PUndo j ∧
              vs_components vs !! j = None
  | ERunning s => ∃ vs, w_sims w !! s = Some vs ∧ vs_pc vs = PSetBuilding
  | ECheck s =>
      ∃ vs, w_sims w !! s = Some vs ∧ vs_pc vs = PLoop ∧
            vs_finished vs = false
  | EExit s =>
      ∃ vs, w_sims w !! s = Some vs ∧ vs_pc vs = PLoop ∧
            vs_finished vs = true
  | ERun s => ∃ vs, w_sims w !! s = Some vs ∧ vs_pc vs = PRun
  | EFinish s =>
      ∃ vs, w_sims w !! s = Some vs ∧ w_sims w' !! s = Some (finish vs)
  | _ => True
  end.
Proof.
  intros Hstep. step_cases Hstep; simpl; eauto.
  eexists. split; [done|]. by rewrite lookup_insert_eq.
Qed.

Lemma components_later tr1 w1 acts tr w s vs1 vs :
  world_inv tr1 w1 → w_sims w1 !! s = Some vs1 → created (vs_pc vs1) = true →
  run w1 acts = Some (tr, w) → w_sims w !! s = Some vs →
  vs_components vs = vs_components vs1.
Proof.
  intros Hinv Hs1 Hc Hrun Hs.
  destruct (components_fixed_run _ _ _ _ _ _ Hs1 Hc
              (heap_sims _ (inv_heap _ _ Hinv) _ _ Hs1) Hrun)
    as (vs' & Hs' & Hcs & _).
  congruence.
Qed.

(** The schedule that led to an event of a reachable trace. *)
Lemma reach_split_run model dt Simulator acts tr1 e tr2 w :
  run (init_world model dt Simulator) acts = Some (tr1 ++ e :: tr2, w) →
  ∃ acts1 w1 a w2 acts2,
    run (init_world model dt Simulator) acts1 = Some (tr1, w1) ∧
    step w1 a = Some (e, w2) ∧
    run (init_world model dt Simulator) (acts1 ++ [a]) = Some (tr1 ++ [e], w2) ∧
    run w2 acts2 = Some (tr2, w).
Proof.
  intros Hrun.
  destruct (run_split _ _ _ _ _ _ Hrun)
    as (acts1 & a & acts2 & w1 & w2 & -> & H1 & H2 & H3).
  exists acts1, w1, a, w2, acts2. split_and!; try done.
  eapply run_app_Some; [done|]. by eapply run_cons_Some.
Qed.

(** ** The template *)

Lemma configs_app tr1 tr2 : configs (tr1 ++ tr2) = configs tr1 ++ configs tr2.
Proof. apply omap_app. Qed.

Lemma template_inv_step tr w a e w' :
  template_inv tr w → step w a = Some (e, w') → template_inv (tr ++ [e]) w'.
Proof.
  unfold template_inv. intros Ht Hstep. rewrite configs_app.
  step_cases Hstep; simpl; rewrite Ht; simpl; by rewrite ?app_nil_r.
Qed.

Lemma template_inv_reachable model dt Simulator acts tr w :
  run (init_world model dt Simulator) acts = Some (tr, w) → template_inv tr w.
Proof.
  intros Hrun.
  by apply (run_invariant template_inv template_inv_step acts []
              (init_world model dt Simulator) tr w).
Qed.

(** ** The registry along a schedule *)

Lemma snoc_eq_middle {A} (l l1 l2 : list A) x y :
  l ++ [x] = l1 ++ y :: l2 →
  (l2 = [] ∧ l = l1 ∧ x = y) ∨ (∃ l2', l2 = l2' ++ [x] ∧ l = l1 ++ y :: l2').
Proof.
  intros Heq. destruct l2 as [|z l2 _] using rev_ind.
  - left. apply app_inj_tail in Heq as [-> ->]. done.
  - right. exists l2. rewrite app_comm_cons, app_assoc in Heq.
    apply app_inj_tail in Heq as [-> ->]. done.
Qed.

Lemma constructions_app id tr1 tr2 :
  constructions id (tr1 ++ tr2) = constructions id tr1 + constructions id tr2.
Proof. unfold constructions. by rewrite List.filter_app, length_app. Qed.

(** A pop of [id] that returns uses up one construction under [id]. *)
Lemma pops_constructions_step w a e w' id :
  step w a = Some (e, w') →
  pops id [e] + registered (w_viz w') id
    ≤ registered (w_viz w) id + constructions id [e].
Proof.
  intros Hstep.
  step_cases Hstep; unfold pops, constructions, registered; simpl.
  all: rewrite ?lookup_insert, ?lookup_delete.
  all: repeat case_bool_decide; repeat case_decide; simplify_eq/=.
  all: repeat case_match; simplify_eq/=; lia.
Qed.

Lemma pops_constructions_run acts w tr w' id :
  run w acts = Some (tr, w') →
  pops id tr + registered (w_viz w') id
    ≤ registered (w_viz w) id + constructions id tr.
Proof.
  revert w tr. induction acts as [|a acts IH]; intros w tr Hrun; simpl in Hrun.
  - simplify_eq. unfold pops, constructions. simpl. lia.
  - destruct (step w a) as [[e w1]|] eqn:Hstep; simpl in Hrun; [|done].
    destruct (run w1 acts) as [[tr1 w2]|] eqn:Hrest; simpl in Hrun; [|done].
    simplify_eq.
    pose proof (pops_constructions_step _ _ _ _ id Hstep).
    pose proof (IH _ _ Hrest).
    change (e :: tr1) with ([e] ++ tr1).
    rewrite pops_app, constructions_app. lia.
Qed.

Lemma registry_inv_step tr w a e w' :
  heap_inv w → registry_inv tr w → step w a = Some (e, w') →
  registry_inv (tr ++ [e]) w'.
Proof.
  intros Hheap [Hc Hw] Hstep.
  assert (Hkeep : ∀ k c,
            viz_components (w_viz w) !! k = Some c → pops k [e] = 0 →
            comp_id c = k ∧
            ∃ tr1 tr2, tr ++ [e] = tr1 ++ EComponent (comp_sim c) c :: tr2 ∧
                       pops k tr2 = 0).
  { intros k c Hk He. destruct (Hc _ _ Hk) as (Hid & tr1 & tr2 & -> & Hp).
    split; [done|]. exists tr1, (tr2 ++ [e]).
    rewrite <-app_assoc, pops_app. split; [done|lia]. }
  split.
  - intros k c.
    step_cases Hstep; simpl.
    all: rewrite ?lookup_insert, ?lookup_delete; repeat case_decide; subst.
    all: intros Hk; simplify_eq/=.
    all: try by (apply Hkeep; [done|unfold pops; simpl;
                                by rewrite ?bool_decide_eq_false_2 by done]).
    split; [done|]. eexists tr, []. done.
  - intros tr1 s c tr2 Heq Hp.
    apply snoc_eq_middle in Heq as [(-> & -> & ->)|(tr2' & -> & ->)].
    + step_cases Hstep; simpl. by rewrite lookup_insert_eq.
    + rewrite pops_app in Hp.
      assert (Hold : viz_components (w_viz w) !! comp_id c = Some c)
        by (apply (Hw tr1 s c tr2'); [done|lia]).
      destruct (heap_registry _ Hheap _ _ Hold) as [_ Hlt].
      step_cases Hstep; simpl; try done.
      * rewrite lookup_insert_ne by lia. done.
      * unfold pops in Hp. simpl in Hp.
        case_bool_decide; simpl in Hp; [lia|].
        rewrite lookup_delete_ne by done. done.
Qed.

Lemma registry_inv_reachable model dt Simulator acts tr w :
  run (init_world model dt Simulator) acts = Some (tr, w) → registry_inv tr w.
Proof.
  intros Hrun.
  assert (Hboth : world_inv tr w ∧ registry_inv tr w); [|by destruct Hboth].
  apply (run_invariant (λ tr w, world_inv tr w ∧ registry_inv tr w))
    with (acts := acts) (tr0 := []) (w0 := init_world model dt Simulator);
    [|split|done].
  { intros tr' w1 a e w2 [Hi Hr] Hstep. split.
    - by eapply world_inv_step.
    - eapply registry_inv_step; [|done..]. apply (inv_heap _ _ Hi). }
  { apply world_inv_init. }
  split; simpl.
  - intros k c. by rewrite lookup_empty.
  - intros tr1 s c tr2 Heq. by destruct tr1.
Qed.

(** ** The components of a session are distinct objects *)

Lemma components_distinct_step w a e w' :
  heap_inv w →
  (∀ s vs, w_sims w !! s = Some vs → NoDup (comp_id <$> vs_components vs)) →
  step w a = Some (e, w') →
  ∀ s vs, w_sims w' !! s = Some vs → NoDup (comp_id <$> vs_components vs).
Proof.
  intros Hheap Hnd Hstep s' vs'.
  step_cases Hstep; simpl.
  all: lookup_cases; intros; simplify_eq/=.
  all: try by eapply Hnd.
  all: try by apply NoDup_nil.
  rewrite fmap_app. apply NoDup_app. split_and!.
  - by eapply Hnd.
  - intros k Hk ->%list_elem_of_singleton.
    apply list_elem_of_fmap in Hk as (c1 & Hid & Hc1).
    match goal with
    | Hv : w_sims w !! _ = Some _ |- _ =>
        destruct (heap_components _ Hheap _ _ _ Hv Hc1) as [Hlt _]
    end.
    simpl in Hid. lia.
  - apply NoDup_singleton.
Qed.

Lemma components_distinct model dt Simulator acts tr w s vs :
  run (init_world model dt Simulator) acts = Some (tr, w) →
  w_sims w !! s = Some vs → NoDup (comp_id <$> vs_components vs).
Proof.
  intros Hrun.
  assert (Hboth : world_inv tr w ∧
            ∀ s vs, w_sims w !! s = Some vs →
                    NoDup (comp_id <$> vs_components vs)).
  2:{ destruct Hboth as [_ Hnd]. apply Hnd. }
  apply (run_invariant
           (λ tr w, world_inv tr w ∧
              ∀ s vs, w_sims w !! s = Some vs →
                      NoDup (comp_id <$> vs_components vs)))
    with (acts := acts) (tr0 := []) (w0 := init_world model dt Simulator);
    [|split|done].
  { intros tr' w1 a e w2 [Hi Hr] Hstep. split.
    - by eapply world_inv_step.
    - eapply components_distinct_step; [|done..]. apply (inv_heap _ _ Hi). }
  { apply world_inv_init. }
  intros s' vs'. simpl. by rewrite lookup_empty.
Qed.

(** ** The call and the return of [create_sim()] *)

Lemma call_step w a s w' :
  heap_inv w → step w a = Some (ECall s, w') →
  w_sims w !! s = None ∧ w_viz w' = w_viz w.
Proof.
  intros Hheap Hstep. step_cases Hstep. split; [|done].
  destruct (w_sims w !! w_next w) as [vs|] eqn:Hs; [|done].
  apply (heap_sims _ Hheap) in Hs. lia.
Qed.

Lemma spawn_step tr w a s w' :
  world_inv tr w → step w a = Some (ESpawn s, w') →
  ∃ vs, w_sims w' !! s = Some (set_pc PBuild vs) ∧
        comp_spec <$> vs_components vs = viz_template (w_viz w) ∧
        w_viz w' = w_viz w.
Proof.
  intros Hinv Hstep. step_cases Hstep.
  match goal with
  | Hv : w_sims w !! s = Some ?vs0, Hp : vs_pc ?vs0 = PInit _ |- _ =>
      exists vs0; split_and!;
      [simpl; by rewrite lookup_alter_eq, Hv| |done];
      pose proof (inv_sessions _ _ Hinv _ _ Hv) as Hsess;
      apply prefix_length_eq; [apply (session_template _ _ Hsess)|];
      rewrite length_fmap, <-(session_iterator _ _ Hsess _ Hp);
      by apply lookup_ge_None
  end.
Qed.

(** ** The model along a schedule *)

Lemma model_after_app (m : Model) tr1 tr2 :
  model_after m (tr1 ++ tr2) = model_after (model_after m tr1) tr2.
Proof. apply foldl_app. Qed.

(** A step changes the model by what its event says, and by nothing else. *)
Lemma model_step w a e w' :
  step w a = Some (e, w') →
  viz_model (w_viz w') = model_event (viz_model (w_viz w)) e.
Proof. intros Hstep. step_cases Hstep; done. Qed.

Lemma model_run acts w tr w' :
  run w acts = Some (tr, w') →
  viz_model (w_viz w') = model_after (viz_model (w_viz w)) tr.
Proof.
  revert w tr. induction acts as [|a acts IH]; intros w tr Hrun; simpl in Hrun.
  - by simplify_eq.
  - destruct (step w a) as [[e w1]|] eqn:Hstep; simpl in Hrun; [|done].
    destruct (run w1 acts) as [[tr1 w2]|] eqn:Hrest; simpl in Hrun; [|done].
    simplify_eq. rewrite (IH _ _ Hrest), (model_step _ _ _ _ Hstep). done.
Qed.

Lemma build_step w a s w' :
  step w a = Some (EBuild s, w') →
  ∃ vs sm,
    w_sims w !! s = Some vs ∧ vs_pc vs = PBuild ∧
    viz_Simulator (w_viz w) (viz_model (w_viz w)) (vs_dt vs) = Some sm ∧
    w_sims w' !! s = Some (set_pc (PUndo 0) (set_sim (Some sm) vs)) ∧
    w_viz w' = w_viz w.
Proof.
  intros Hstep. step_cases Hstep.
  eexists _, _. split_and!; try done. simpl. by rewrite lookup_insert_eq.
Qed.

(** While a session stands in the loop of lines 38 and 39 it holds the
    lock, so the only events that change the model are its own calls of
    [remove_nengo_objects]. *)
Lemma undo_phase_step tr w a e w' s vs j :
  world_inv tr w → w_sims w !! s = Some vs → vs_pc vs = PUndo j →
  step w a = Some (e, w') → e ≠ ERelease s →
  (∃ vs' j', w_sims w' !! s = Some vs' ∧ vs_pc vs' = PUndo j' ∧
             vs_sim vs' = vs_sim vs) ∧
  ∀ m, model_event m e =
       match undo_of s e with
       | Some c => remove_nengo_objects c m
       | None => m
       end.
Proof.
  intros Hinv Hs Hpc Hstep Hne.
  pose proof (heap_sims _ (inv_heap _ _ Hinv) _ _ Hs) as Hlt.
  assert (Hh : holding (vs_pc vs) = true) by by rewrite Hpc.
  assert (Hlock : viz_lock (w_viz w) = true).
  { destruct (viz_lock (w_viz w)) eqn:Hl; [done|].
    by rewrite (mutex_free _ (inv_mutex _ _ Hinv) _ _ Hl Hs) in Hh. }
  assert (Hsame : ∀ s' vs', w_sims w !! s' = Some vs' →
                    holding (vs_pc vs') = true → s' = s).
  { intros s' vs' Hs' Hh'.
    by apply (mutex_one _ (inv_mutex _ _ Hinv) s' s vs' vs). }
  step_cases Hstep.
  all: try match goal with
       | Hv : w_sims _ !! ?s' = Some ?vs', Hp : vs_pc ?vs' = _ |- _ =>
           assert_fails (constr_eq Hv Hs);
           assert (s' = s)
             by (apply (Hsame s' vs' Hv); rewrite Hp; reflexivity);
           subst s'
       end.
  all: simplify_eq/=.
  all: try congruence.
  all: split; [|intros m; simpl; try by rewrite ?decide_True by done].
  all: try (lookup_cases; simplify_eq/=).
  all: try lia.
  all: try congruence.
  all: eauto.
Qed.


Lemma undo_phase_run acts tr w s vs j tr' w' :
  world_inv tr w → w_sims w !! s = Some vs → vs_pc vs = PUndo j →
  run w acts = Some (tr', w') → ERelease s ∉ tr' →
  (∃ vs' j', w_sims w' !! s = Some vs' ∧ vs_pc vs' = PUndo j' ∧
             vs_sim vs' = vs_sim vs) ∧
  ∀ m, model_after m tr' = remove_all (undos s tr') m.
Proof.
  revert tr w vs j tr'.
  induction acts as [|a acts IH]; intros tr w vs j tr' Hinv Hs Hpc Hrun Hno;
    simpl in Hrun.
  - simplify_eq. split; [|done]. by exists vs, j.
  - destruct (step w a) as [[e w1]|] eqn:Hstep; simpl in Hrun; [|done].
    destruct (run w1 acts) as [[tr1 w2]|] eqn:Hrest; simpl in Hrun; [|done].
    simplify_eq. apply not_elem_of_cons in Hno as [Hne Hno].
    destruct (undo_phase_step _ _ _ _ _ _ _ _ Hinv Hs Hpc Hstep (not_eq_sym Hne))
      as [(vs1 & j1 & Hs1 & Hpc1 & Hsim1) Hm].
    pose proof (world_inv_step _ _ _ _ _ Hinv Hstep) as Hinv1.
    destruct (IH _ _ _ _ _ Hinv1 Hs1 Hpc1 Hrest Hno)
      as [(vs2 & j2 & Hs2 & Hpc2 & Hsim2) Hrec].
    split; [exists vs2, j2; split_and!; [done|done|congruence]|].
    intros m.
    change (model_after m (e :: tr1)) with (model_after (model_event m e) tr1).
    rewrite Hrec, Hm.
    unfold undos. simpl. destruct (undo_of s e); done.
Qed.

(** ** Single events *)

Lemma pop_step w a id c w' :
  step w a = Some (EPop id c, w') →
  viz_components (w_viz w) !! id = Some c ∧
  viz_components (w_viz w') !! id = None.
Proof.
  intros Hstep. step_cases Hstep. split; [done|]. simpl.
  apply lookup_delete_eq.
Qed.

Lemma undo_step w a s c w' :
  step w a = Some (EUndo s c, w') →
  a = ASession s ∧
  viz_model (w_viz w') = remove_nengo_objects c (viz_model (w_viz w)).
Proof. intros Hstep. step_cases Hstep. done. Qed.


(** * The claims *)

(** ** Session creation *)

(** What [create_sim()] returns on a free lock, field by field. *)
Lemma create_sim_returns w :
  viz_lock (w_viz w) = false →
  ∃ w' vs,
    create_sim w = Returned (w_next w, w') ∧
    w_sims w' !! w_next w = Some vs ∧
    vs_components vs =
      new_components (w_next w) (S (w_next w)) (viz_template (w_viz w)) ∧
    vs_pc vs = PBuild ∧ vs_building vs = true ∧ vs_finished vs = false ∧
    vs_sim vs = None ∧
    viz_lock (w_viz w') = true ∧
    viz_template (w_viz w') = viz_template (w_viz w) ∧
    w_next w' = S (w_next w) + length (viz_template (w_viz w)) ∧
    (∀ c, c ∈ vs_components vs →
          viz_components (w_viz w') !! comp_id c = Some c) ∧
    (∀ k, k ≤ w_next w →
          viz_components (w_viz w') !! k = viz_components (w_viz w) !! k) ∧
    (∀ s, s ≠ w_next w → w_sims w' !! s = w_sims w !! s).
Proof.
  intros Hlock. unfold create_sim, VizSim_alloc. cbn zeta. simpl.
  rewrite Hlock.
  set (s := w_next w).
  set (w0 := mkWorld (w_viz w) (<[s := VizSim_new (w_viz w)]> (w_sims w)) (S s)).
  set (vs1 := set_pc (PInit 0) (VizSim_new (w_viz w))).
  assert (Hs1 : w_sims (acquire s w0) !! s = Some vs1).
  { simpl. by rewrite lookup_alter_eq, lookup_insert_eq. }
  destruct (VizSim_init_loop_spec (viz_template (w_viz w)) 0 s _ _ Hs1)
    as (Hn & Ht & Hl & Ho & Hreg & Hkeep & vs' & Hs' & Hcs & Hb & Hf & Hsim & Hpc).
  eexists _, (set_pc PBuild vs'). split; [done|].
  simpl in *. rewrite lookup_alter_eq, Hs'. simpl.
  split_and!; try done.
  - intros c Hc. apply Hreg. by rewrite <-Hcs.
  - intros k Hk. rewrite Hkeep by (unfold s; lia). done.
  - intros s' Hne. rewrite lookup_alter_ne by done. rewrite Ho by done.
    by rewrite lookup_alter_ne, lookup_insert_ne.
Qed.

(** C1, as the code has it.  The constructor reads the template while it
    runs, not when it is called.  Run without interruption on a free lock,
    [create_sim()] returns a new session that owns one component per
    template entry, in template order and each a distinct object built for
    this session; every one of them sits in the registry under its own id
    when the call returns; the sessions that exist already are left as they
    are, and nothing that happens afterwards changes the list of the new
    session.  Along every schedule, from the world in which [create_sim()]
    is called to the one in which it returns, the session owns one
    component per entry of the template as it stands at the return: the
    entries of the moment of the call followed by those that configuration
    calls appended while the constructor waited for the lock or was inside
    its loop, and exactly those of the moment of the call when there was no
    such call.  Each component is constructed and registered between the
    call and the return and is in the registry at the return unless it was
    popped in between; other sessions and later events do not change the
    list. *)
Theorem create_sim_template_fidelity :
  (∀ w,
      viz_lock (w_viz w) = false →
      ∃ w' vs,
        create_sim w = Returned (w_next w, w') ∧
        w_sims w' !! w_next w = Some vs ∧
        comp_spec <$> vs_components vs = viz_template (w_viz w) ∧
        length (vs_components vs) = length (viz_template (w_viz w)) ∧
        NoDup (comp_id <$> vs_components vs) ∧
        (∀ c, c ∈ vs_components vs →
              comp_sim c = w_next w ∧
              viz_components (w_viz w') !! comp_id c = Some c) ∧
        (∀ s, s ≠ w_next w → w_sims w' !! s = w_sims w !! s) ∧
        (∀ acts tr w'',
            run w' acts = Some (tr, w'') →
            ∃ vs'', w_sims w'' !! w_next w = Some vs'' ∧
                    vs_components vs'' = vs_components vs)) ∧
  (∀ model dt Simulator acts tr w s vs tr0 tr1 tr2,
      run (init_world model dt Simulator) acts = Some (tr, w) →
      w_sims w !! s = Some vs →
      tr = tr0 ++ ECall s :: tr1 ++ ESpawn s :: tr2 →
      ∃ acts0 wc acts1 wr,
        run (init_world model dt Simulator) acts0 = Some (tr0, wc) ∧
        run (init_world model dt Simulator) acts1 =
          Some (tr0 ++ ECall s :: tr1 ++ [ESpawn s], wr) ∧
        comp_spec <$> vs_components vs = viz_template (w_viz wr) ∧
        viz_template (w_viz wr) = viz_template (w_viz wc) ++ configs tr1 ∧
        length (vs_components vs) =
          length (viz_template (w_viz wc)) + length (configs tr1) ∧
        (configs tr1 = [] →
         comp_spec <$> vs_components vs = viz_template (w_viz wc)) ∧
        NoDup (comp_id <$> vs_components vs) ∧
        (∀ c, c ∈ vs_components vs →
              comp_sim c = s ∧
              ∃ tra trb,
                tr1 = tra ++ EComponent s c :: trb ∧
                (pops (comp_id c) trb = 0 →
                 viz_components (w_viz wr) !! comp_id c = Some c))).
Proof.
  split.
  - intros w Hlock.
    destruct (create_sim_returns w Hlock)
      as (w' & vs & Hret & Hs & Hcs & Hpc & _ & _ & _ & _ & _ & Hn & Hreg & _ & Ho).
    exists w', vs. split_and!; try done.
    + by rewrite Hcs, new_components_spec.
    + rewrite <-(length_fmap comp_spec), Hcs, new_components_spec. done.
    + rewrite Hcs, new_components_id. apply NoDup_seq.
    + intros c Hc. split; [|by apply Hreg].
      rewrite Hcs in Hc. by apply new_components_sim in Hc.
    + intros acts tr w'' Hrun.
      destruct (components_fixed_run acts w' tr w'' (w_next w) vs)
        as (vs'' & ? & ? & _); try done.
      * by rewrite Hpc.
      * lia.
      * eauto.
  - intros model dt Simulator acts tr w s vs tr0 tr1 tr2 Hrun Hs ->.
    pose proof (world_inv_reachable _ _ _ _ _ _ Hrun) as Hinv.
    pose proof (components_distinct _ _ _ _ _ _ _ _ Hrun Hs) as Hnd.
    replace (tr0 ++ ECall s :: tr1 ++ ESpawn s :: tr2)
      with ((tr0 ++ ECall s :: tr1) ++ ESpawn s :: tr2) in Hrun
      by (by rewrite <-app_assoc).
    destruct (reach_split_run _ _ _ _ _ _ _ _ Hrun)
      as (acts1 & w1 & a & wr & acts2 & Hrun1 & Hstep & Hrunr & Hrest).
    destruct (reach_split_run _ _ _ _ _ _ _ _ Hrun1)
      as (acts0 & wc & a0 & wc' & actsm & Hrun0 & Hstep0 & _ & _).
    rewrite <-app_assoc in Hrunr. simpl in Hrunr.
    pose proof (world_inv_reachable _ _ _ _ _ _ Hrun0) as Hinvc.
    pose proof (world_inv_reachable _ _ _ _ _ _ Hrun1) as Hinv1.
    pose proof (world_inv_reachable _ _ _ _ _ _ Hrunr) as Hinvr.
    pose proof (registry_inv_reachable _ _ _ _ _ _ Hrunr) as Hreg.
    pose proof (template_inv_reachable _ _ _ _ _ _ Hrun0) as Htc.
    pose proof (template_inv_reachable _ _ _ _ _ _ Hrun1) as Ht1.
    unfold template_inv in Htc, Ht1.
    rewrite configs_app in Ht1.
    change (configs (ECall s :: tr1)) with (configs tr1) in Ht1.
    destruct (call_step _ _ _ _ (inv_heap _ _ Hinvc) Hstep0) as [Hunborn _].
    destruct (spawn_step _ _ _ _ _ Hinv1 Hstep) as (vs1 & Hsr & Hspecs & Hviz).
    assert (Hcs : vs_components vs = vs_components vs1).
    { by apply (components_later _ _ _ _ _ _ _ _ Hinvr Hsr eq_refl Hrest Hs). }
    assert (Htr : viz_template (w_viz wr) =
                  viz_template (w_viz wc) ++ configs tr1).
    { rewrite Hviz, Ht1, Htc. done. }
    exists acts0, wc, (acts1 ++ [a]), wr.
    split_and!; try done.
    + by rewrite Hcs, Hspecs, Hviz.
    + rewrite <-(length_fmap comp_spec), Hcs, Hspecs, <-Hviz, Htr.
      by rewrite length_app.
    + intros Hnone. rewrite Hcs, Hspecs, <-Hviz, Htr, Hnone.
      by rewrite app_nil_r.
    + intros c Hc. split.
      { by destruct (heap_components _ (inv_heap _ _ Hinv) _ _ _ Hs Hc). }
      destruct (trace_facts _ _ _ _ Hinvr Hsr) as (_ & _ & _ & _ & _ & HC & _).
      assert (Hin : EComponent s c ∈ tr0 ++ ECall s :: tr1 ++ [ESpawn s]).
      { apply HC. simpl. split; [by rewrite <-Hcs|]. by left. }
      apply elem_of_app in Hin as [Hin|Hin].
      { destruct (trace_unborn_facts _ _ _ (EComponent s c) Hinvc Hunborn);
          [|done].
        simpl. by rewrite bool_decide_eq_true_2. }
      apply elem_of_cons in Hin as [Hin|Hin]; [done|].
      apply elem_of_app in Hin as [Hin|Hin];
        [|by apply list_elem_of_singleton in Hin].
      apply list_elem_of_split in Hin as (tra & trb & ->).
      exists tra, trb. split; [done|]. intros Hp.
      apply (registry_waiting _ _ Hreg (tr0 ++ ECall s :: tra) s c
               (trb ++ [ESpawn s])).
      * rewrite <-?app_assoc. simpl. by rewrite <-?app_assoc.
      * rewrite pops_app, Hp. done.
Qed.

(** ** The registry *)

(** C2, as the code has it.  [pop_component(id)] on a registered id
    removes the mapping and returns its component, leaving the other
    mappings alone; on an id that is not in the registry it raises
    [KeyError] and changes nothing, so a second call right after the first
    raises.  The registry is a dictionary and [add] may put a component
    under an id that was popped before: what holds is one pop per
    registration.  Among any calls on the registry the pops of [id] that
    return are at most as many as the registrations of [id], one more when
    [id] was a key at the start; without a new registration at most one
    returns.  Along every schedule of the whole system the pops of [id]
    that return are at most as many as the components constructed under
    [id], and between two of them a component was constructed under
    [id]. *)
Theorem pop_component_once_per_registration v id :
  (∀ c, viz_components v !! id = Some c →
        pop_component v id =
          (set_components (delete id (viz_components v)) v, Return c)) ∧
  (viz_components v !! id = None →
   pop_component v id = (v, Raise (KeyError id))) ∧
  viz_components (pop_component v id).1 !! id = None ∧
  (∀ k, k ≠ id →
        viz_components (pop_component v id).1 !! k = viz_components v !! k) ∧
  (pop_component (pop_component v id).1 id).2 = Raise (KeyError id) ∧
  (∀ calls,
      (registry_calls id v calls).2 +
        registered (registry_calls id v calls).1 id
        ≤ registered v id + registrations id calls) ∧
  (∀ calls, registrations id calls = 0 → (registry_calls id v calls).2 ≤ 1) ∧
  (∀ w acts tr w',
      run w acts = Some (tr, w') →
      pops id tr + registered (w_viz w') id
        ≤ registered (w_viz w) id + constructions id tr) ∧
  (∀ model dt Simulator acts tr w,
      run (init_world model dt Simulator) acts = Some (tr, w) →
      pops id tr ≤ constructions id tr) ∧
  (∀ w acts tr w' tr1 c1 tr2 c2 tr3,
      run w acts = Some (tr, w') →
      tr = tr1 ++ EPop id c1 :: tr2 ++ EPop id c2 :: tr3 →
      0 < constructions id tr2).
Proof.
  split_and!.
  - apply pop_component_Some.
  - apply pop_component_None.
  - apply pop_component_gone.
  - intros k Hk. unfold pop_component.
    destruct (viz_components v !! id); simpl; [|done].
    by rewrite lookup_delete_ne.
  - by rewrite pop_component_None by apply pop_component_gone.
  - apply registry_calls_count.
  - intros calls Hnone. pose proof (registry_calls_count id v calls) as Hle.
    assert (registered v id ≤ 1) by (unfold registered; case_match; lia).
    lia.
  - intros w acts tr w'. apply pops_constructions_run.
  - intros model dt Simulator acts tr w Hrun.
    pose proof (pops_constructions_run _ _ _ _ id Hrun) as Hle.
    assert (registered (w_viz (init_world model dt Simulator)) id = 0) by done.
    lia.
  - intros w acts tr w' tr1 c1 tr2 c2 tr3 Hrun ->.
    destruct (run_split _ _ _ _ _ _ Hrun)
      as (acts1 & a1 & acts' & w1 & w2 & _ & _ & Hstep1 & Hrun').
    destruct (run_split _ _ _ _ _ _ Hrun')
      as (acts2 & a2 & acts3 & w3 & w4 & _ & Hrun2 & Hstep2 & _).
    destruct (pop_step _ _ _ _ _ Hstep1) as [_ Hgone].
    destruct (pop_step _ _ _ _ _ Hstep2) as [Hthere _].
    pose proof (pops_constructions_run _ _ _ _ id Hrun2) as Hle.
    unfold registered in Hle. rewrite Hgone, Hthere in Hle. lia.
Qed.

(** C3, as the code has it.  [add(component)] stores the component under
    its own address [id(component)], replaces what was stored under that
    key, leaves the other keys and the rest of the organizer alone, and
    returns None.  Adding the same component again changes nothing.  The
    address itself is allocated when the component is constructed: in a
    world whose heap is well formed the loop body of [__init__] registers
    the new component under an address that was not a key before. *)
Theorem add_registers_under_identity v c :
  (add v c).2 = PyNone ∧
  viz_components (add v c).1 !! comp_id c = Some c ∧
  (∀ k, k ≠ comp_id c →
        viz_components (add v c).1 !! k = viz_components v !! k) ∧
  viz_template (add v c).1 = viz_template v ∧
  viz_lock (add v c).1 = viz_lock v ∧
  (add (add v c).1 c).1 = (add v c).1 ∧
  (∀ w i spec s,
      heap_inv w →
      comp_id (new_component i spec s w).1 = w_next w ∧
      viz_components (w_viz w) !! w_next w = None ∧
      viz_components (w_viz (new_component i spec s w).2) !! w_next w =
        Some (new_component i spec s w).1).
Proof.
  split_and!; simpl; try done.
  - apply lookup_insert_eq.
  - intros k Hk. by rewrite lookup_insert_ne.
  - unfold add, set_components. simpl. by rewrite insert_insert_eq.
  - intros w i spec s Hheap. split_and!; [done| |by rewrite lookup_insert_eq].
    destruct (viz_components (w_viz w) !! w_next w) as [c'|] eqn:Hc; [|done].
    apply (heap_registry _ Hheap) in Hc. lia.
Qed.

(** ** Configuration calls *)

(** C8. [slider()] and [value()] append one entry to the template and
    return None; as steps of the system they change nothing else, in
    particular no session.  The list of components of a session whose
    [__init__] has returned stays what it is whatever happens next, template
    appends included. *)
Theorem configuration_appends_one w args kwargs :
  (slider (w_viz w) args kwargs).2 = PyNone ∧
  viz_template (slider (w_viz w) args kwargs).1 =
    viz_template (w_viz w) ++ [(Slider, args, kwargs)] ∧
  (value (w_viz w) args kwargs).2 = PyNone ∧
  viz_template (value (w_viz w) args kwargs).1 =
    viz_template (w_viz w) ++ [(Value, args, kwargs)] ∧
  (∀ a, a = ASlider args kwargs ∨ a = AValue args kwargs →
        ∃ e w', step w a = Some (e, w') ∧
                length (viz_template (w_viz w')) =
                  S (length (viz_template (w_viz w))) ∧
                w_sims w' = w_sims w ∧
                viz_components (w_viz w') = viz_components (w_viz w) ∧
                viz_lock (w_viz w') = viz_lock (w_viz w) ∧
                w_next w' = w_next w) ∧
  (∀ s vs acts tr w',
      w_sims w !! s = Some vs → created (vs_pc vs) = true → s < w_next w →
      run w acts = Some (tr, w') →
      ∃ vs', w_sims w' !! s = Some vs' ∧
             vs_components vs' = vs_components vs).
Proof.
  split_and!; try done.
  - intros a [->| ->]; simpl; eexists _, _; (split; [done|]); simpl.
    all: rewrite length_app; simpl; split_and!; try done; lia.
  - intros s vs acts tr w' Hs Hc Hlt Hrun.
    destruct (components_fixed_run _ _ _ _ _ _ Hs Hc Hlt Hrun)
      as (vs' & ? & ? & _).
    eauto.
Qed.


(** ** The build phase *)

(** C6. Along every schedule, when a session leaves the building state
    (line 43) [remove_nengo_objects] has run on each of its components, once
    and in the order of its list, all of them after the simulator was built;
    each such call comes after the build and before line 43, and no quantum
    is simulated before line 43.  The list itself follows the template.
    The calls are made on the model: the model is at every instant what the
    constructors and the [remove_nengo_objects] calls of the trace made of
    the initial one, in the order of the trace; the action behind an undo
    event of the session is an action of its own thread and replaces the
    model by [remove_nengo_objects] of it; and when the session releases
    the lock the model is the one its simulator was built on with
    [remove_nengo_objects] of every component applied to it, in the order
    of the list, and with nothing else done to it, and the session has that
    simulator.  A thread that stands at
    its first line with the lock held and a simulator class that builds
    gets there by its own actions. *)
Theorem undo_before_running model dt Simulator acts tr w s vs :
  run (init_world model dt Simulator) acts = Some (tr, w) →
  w_sims w !! s = Some vs →
  (∀ tr1 tr2, tr = tr1 ++ ERunning s :: tr2 →
      undos s tr1 = vs_components vs ∧ EBuild s ∈ tr1 ∧ ERun s ∉ tr1) ∧
  (∀ tr1 tr2 c, tr = tr1 ++ EUndo s c :: tr2 →
      EBuild s ∈ tr1 ∧ (ERunning s ∉ tr1) ∧ (ERun s ∉ tr1) ∧
      (∃ j, vs_components vs !! j = Some c ∧
            undos s tr1 = take j (vs_components vs))) ∧
  (∀ tr1 tr2, tr = tr1 ++ ERun s :: tr2 →
      ERunning s ∈ tr1 ∧ undos s tr1 = vs_components vs) ∧
  (vs_building vs = false →
      undos s tr = vs_components vs ∧ EBuild s ∈ tr) ∧
  (vs_building vs = true → ERun s ∉ tr) ∧
  (comp_spec <$> vs_components vs) `prefix_of` viz_template (w_viz w) ∧
  viz_model (w_viz w) = model_after model tr ∧
  (∀ tr1 tr2 c, tr = tr1 ++ EUndo s c :: tr2 →
      ∃ acts1 w1 w2,
        run (init_world model dt Simulator) acts1 = Some (tr1, w1) ∧
        step w1 (ASession s) = Some (EUndo s c, w2) ∧
        viz_model (w_viz w2) = remove_nengo_objects c (viz_model (w_viz w1))) ∧
  (∀ tr1 tr2, tr = tr1 ++ ERelease s :: tr2 →
      ∃ tra trb actsb wb vsb sm acts1 w1,
        tr1 = tra ++ EBuild s :: trb ∧
        run (init_world model dt Simulator) actsb = Some (tra, wb) ∧
        w_sims wb !! s = Some vsb ∧
        viz_Simulator (w_viz wb) (viz_model (w_viz wb)) (vs_dt vsb) = Some sm ∧
        run (init_world model dt Simulator) acts1 = Some (tr1, w1) ∧
        (∃ vs1, w_sims w1 !! s = Some vs1 ∧ vs_sim vs1 = Some sm) ∧
        viz_model (w_viz w1) =
          remove_all (vs_components vs) (viz_model (w_viz wb))) ∧
  (∀ w0 vs0 sm,
      w_sims w0 !! s = Some vs0 → vs_pc vs0 = PBuild →
      viz_lock (w_viz w0) = true →
      viz_Simulator (w_viz w0) (viz_model (w_viz w0)) (vs_dt vs0) = Some sm →
      ∃ w',
        run w0 (replicate (3 + length (vs_components vs0)) (ASession s)) =
          Some (EBuild s :: (EUndo s <$> vs_components vs0) ++
                  [ERelease s; ERunning s], w') ∧
        viz_model (w_viz w') =
          remove_all (vs_components vs0) (viz_model (w_viz w0)) ∧
        w_sims w' !! s =
          Some (set_pc PLoop (set_building false (set_sim (Some sm) vs0)))).
Proof.
  intros Hrun Hs.
  pose proof (world_inv_reachable _ _ _ _ _ _ Hrun) as Hinv.
  pose proof (inv_sessions _ _ Hinv _ _ Hs) as Hsess.
  split_and!.
  - intros tr1 tr2 ->.
    destruct (reach_split _ _ _ _ _ _ _ _ Hrun)
      as (w1 & a & w2 & acts2 & Hinv1 & Hstep & _ & Hrun1 & _).
    destruct (step_event_pc _ _ _ _ Hstep) as (vs1 & Hs1 & Hpc1).
    destruct (trace_facts _ _ _ _ Hinv1 Hs1) as (_ & _ & HB & _ & HR & _ & _ & HU).
    rewrite HU. unfold undone. rewrite Hpc1 in *. split_and!.
    + symmetry. eapply components_later; [done..| |done|done].
      by rewrite Hpc1.
    + by apply HB.
    + intros Hin. by apply HR in Hin.
  - intros tr1 tr2 c ->.
    destruct (reach_split _ _ _ _ _ _ _ _ Hrun)
      as (w1 & a & w2 & acts2 & Hinv1 & Hstep & _ & Hrun1 & _).
    destruct (step_event_pc _ _ _ _ Hstep) as (vs1 & j & Hs1 & Hpc1 & Hc).
    destruct (trace_facts _ _ _ _ Hinv1 Hs1) as (_ & _ & HB & HG & HR & _ & _ & HU).
    rewrite HU. unfold undone. rewrite Hpc1 in *.
    assert (vs_components vs = vs_components vs1) as ->.
    { eapply components_later; [done..| |done|done]. by rewrite Hpc1. }
    split_and!.
    + by apply HB.
    + intros Hin. by apply HG in Hin.
    + intros Hin. by apply HR in Hin.
    + eauto.
  - intros tr1 tr2 ->.
    destruct (reach_split _ _ _ _ _ _ _ _ Hrun)
      as (w1 & a & w2 & acts2 & Hinv1 & Hstep & _ & Hrun1 & _).
    destruct (step_event_pc _ _ _ _ Hstep) as (vs1 & Hs1 & Hpc1).
    destruct (trace_facts _ _ _ _ Hinv1 Hs1) as (_ & _ & _ & HG & _ & _ & _ & HU).
    rewrite HU. unfold undone. rewrite Hpc1 in *. split.
    + by apply HG.
    + symmetry. eapply components_later; [done..| |done|done].
      by rewrite Hpc1.
  - intros Hb. rewrite (session_building _ _ Hsess) in Hb.
    destruct (trace_facts _ _ _ _ Hinv Hs) as (_ & _ & HB & _ & _ & _ & _ & HU).
    rewrite HU, HB. unfold undone.
    destruct (vs_pc vs) as [| | | | | | | |[]]; done.
  - intros Hb. rewrite (session_building _ _ Hsess) in Hb.
    destruct (trace_facts _ _ _ _ Hinv Hs) as (_ & _ & _ & _ & HR & _).
    intros Hin. apply HR in Hin. rewrite Hin in Hb. done.
  - apply (session_template _ _ Hsess).
  - apply (model_run _ _ _ _ Hrun).
  - intros tr1 tr2 c ->.
    destruct (reach_split_run _ _ _ _ _ _ _ _ Hrun)
      as (acts1 & w1 & a & w2 & acts2 & Hrun1 & Hstep & _ & _).
    destruct (undo_step _ _ _ _ _ Hstep) as [-> Hm].
    by exists acts1, w1, w2.
  - intros tr1 tr2 ->.
    destruct (reach_split_run _ _ _ _ _ _ _ _ Hrun)
      as (acts1 & w1 & a & w2 & acts2 & Hrun1 & Hstep & Hrun2 & Hrest).
    pose proof (world_inv_reachable _ _ _ _ _ _ Hrun1) as Hinv1.
    pose proof (world_inv_reachable _ _ _ _ _ _ Hrun2) as Hinv2.
    destruct (step_event_pc _ _ _ _ Hstep) as (vs1 & j & Hs1 & Hpc1 & Hj).
    destruct (trace_facts _ _ _ _ Hinv1 Hs1)
      as (_ & HR & HB & _ & _ & _ & _ & HU).
    assert (Hcs : vs_components vs = vs_components vs1).
    { eapply components_later; [exact Hinv1|exact Hs1|by rewrite Hpc1| |exact Hs].
      eapply run_cons_Some; [exact Hstep|exact Hrest]. }
    assert (Hb : EBuild s ∈ tr1) by (apply HB; by rewrite Hpc1).
    assert (Hnr : ERelease s ∉ tr1).
    { intros Hin. apply HR in Hin. by rewrite Hpc1 in Hin. }
    apply list_elem_of_split in Hb as (tra & trb & ->).
    destruct (reach_split_run _ _ _ _ _ _ _ _ Hrun1)
      as (actsb & wb & ab & wb' & actsu & Hrunb & Hstepb & Hrunb' & Hrunu).
    pose proof (world_inv_reachable _ _ _ _ _ _ Hrunb') as Hinvb'.
    destruct (build_step _ _ _ _ Hstepb) as (vsb & sm & Hsb & _ & Hsm & Hsb' & Hvb).
    destruct (trace_facts _ _ _ _ Hinvb' Hsb') as (_ & _ & _ & _ & _ & _ & _ & HUb).
    unfold undone in HU, HUb. rewrite Hpc1 in HU. simpl in HUb.
    rewrite take_0 in HUb.
    rewrite take_ge in HU by by apply lookup_ge_None.
    assert (Hundos : undos s trb = vs_components vs).
    { rewrite (cons_middle (EBuild s)), app_assoc, undos_app, HUb in HU.
      by rewrite Hcs. }
    destruct (undo_phase_run _ _ _ _ _ 0 _ _ Hinvb' Hsb' eq_refl Hrunu)
      as [(vs1' & j' & Hs1' & _ & Hsim) Hmod].
    { intros Hin. apply Hnr. apply elem_of_app. right. by right. }
    exists tra, trb, actsb, wb, vsb, sm, acts1, w1.
    split_and!; try done.
    + exists vs1. split; [done|]. assert (vs1' = vs1) as -> by congruence.
      exact Hsim.
    + by rewrite (model_run _ _ _ _ Hrunu), <-Hundos, Hvb, Hmod.
  - intros w0 vs0 sm Hs0 Hpc0 Hl0 Hsm.
    destruct (runner_build_run _ _ _ _ Hs0 Hpc0 Hl0 Hsm)
      as (w' & Hrun' & _ & Hm' & Hs').
    by exists w'.
Qed.

(** ** The build lock *)

Lemma reach_prefix model dt Simulator acts tr1 tr2 w :
  run (init_world model dt Simulator) acts = Some (tr1 ++ tr2, w) →
  ∃ w1, world_inv tr1 w1.
Proof.
  intros Hrun. destruct tr2 as [|e tr2].
  - rewrite app_nil_r in Hrun. eauto using world_inv_reachable.
  - destruct (reach_split _ _ _ _ _ _ _ _ Hrun) as (w1 & _ & _ & _ & ? & _).
    eauto.
Qed.

Lemma holds_lock_locked tr w s :
  world_inv tr w → holds_lock s tr → viz_lock (w_viz w) = true.
Proof.
  intros Hinv (vs & Hs & Hh)%(holds_lock_holding _ w); [|done].
  destruct (viz_lock (w_viz w)) eqn:Hl; [done|].
  rewrite (mutex_free _ (inv_mutex _ _ Hinv) _ _ Hl Hs) in Hh. done.
Qed.

Lemma holds_lock_unique tr w s1 s2 :
  world_inv tr w → holds_lock s1 tr → holds_lock s2 tr → s1 = s2.
Proof.
  intros Hinv (vs1 & Hs1 & Hh1)%(holds_lock_holding _ w); [|done].
  intros (vs2 & Hs2 & Hh2)%(holds_lock_holding _ w); [|done].
  eapply (mutex_one _ (inv_mutex _ _ Hinv)); done.
Qed.

(** C9. At every instant of every schedule at most one session is between
    its [lock.acquire()] (line 22) and its [lock.release()] (line 41), and
    the lock is held whenever one is; a session gets through line 22 only at
    an instant when no session holds the lock. *)
Theorem build_lock_exclusive model dt Simulator acts tr w :
  run (init_world model dt Simulator) acts = Some (tr, w) →
  (∀ tr1 tr2 s1 s2, tr = tr1 ++ tr2 →
      holds_lock s1 tr1 → holds_lock s2 tr1 → s1 = s2) ∧
  (∀ s, holds_lock s tr → viz_lock (w_viz w) = true) ∧
  (∀ tr1 tr2 s s', tr = tr1 ++ EAcquire s :: tr2 → ¬ holds_lock s' tr1) ∧
  (∀ s1 s2 vs1 vs2,
      w_sims w !! s1 = Some vs1 → w_sims w !! s2 = Some vs2 →
      holding (vs_pc vs1) = true → holding (vs_pc vs2) = true → s1 = s2).
Proof.
  intros Hrun.
  pose proof (world_inv_reachable _ _ _ _ _ _ Hrun) as Hinv.
  split_and!.
  - intros tr1 tr2 s1 s2 ->.
    destruct (reach_prefix _ _ _ _ _ _ _ Hrun) as [w1 Hinv1].
    by apply (holds_lock_unique tr1 w1).
  - intros s. by apply holds_lock_locked.
  - intros tr1 tr2 s s' -> Hh.
    destruct (reach_split _ _ _ _ _ _ _ _ Hrun)
      as (w1 & a & w2 & acts2 & Hinv1 & Hstep & _).
    destruct (step_event_pc _ _ _ _ Hstep) as (vs1 & Hs1 & Hpc1 & Hl).
    apply (holds_lock_locked _ _ _ Hinv1) in Hh. congruence.
  - apply (mutex_one _ (inv_mutex _ _ Hinv)).
Qed.

(** C10. Along every schedule a component of a session is constructed and
    registered only while that session, and no other, holds the lock: line
    22 comes before the first of them, and line 41 comes after the
    simulator was built and [remove_nengo_objects] ran on every component
    of the session, and after it no component of the session is constructed
    any more. *)
Theorem components_built_under_lock model dt Simulator acts tr w s :
  run (init_world model dt Simulator) acts = Some (tr, w) →
  (∀ tr1 tr2 c, tr = tr1 ++ EComponent s c :: tr2 →
      holds_lock s tr1 ∧ ∀ s', holds_lock s' tr1 → s' = s) ∧
  (∀ tr1 tr2 c, tr = tr1 ++ EAcquire s :: tr2 → EComponent s c ∉ tr1) ∧
  (∀ tr1 tr2, tr = tr1 ++ ERelease s :: tr2 →
      holds_lock s tr1 ∧ EBuild s ∈ tr1 ∧
      (∀ c, EComponent s c ∉ tr2) ∧
      ∃ vs, w_sims w !! s = Some vs ∧ undos s tr1 = vs_components vs ∧
            ∀ c, c ∈ vs_components vs → EComponent s c ∈ tr1).
Proof.
  intros Hrun.
  assert (Hcomp : ∀ tr1 tr2 c, tr = tr1 ++ EComponent s c :: tr2 →
                  holds_lock s tr1 ∧ ∀ s', holds_lock s' tr1 → s' = s).
  { intros tr1 tr2 c ->.
    destruct (reach_split _ _ _ _ _ _ _ _ Hrun)
      as (w1 & a & w2 & acts2 & Hinv1 & Hstep & _).
    destruct (step_event_pc _ _ _ _ Hstep) as (vs1 & i & Hs1 & Hpc1 & _).
    assert (Hh : holds_lock s tr1).
    { apply (holds_lock_holding _ w1); [done|]. exists vs1. by rewrite Hpc1. }
    split; [done|]. intros s' Hh'. by apply (holds_lock_unique tr1 w1). }
  split_and!; [done| |].
  - intros tr1 tr2 c -> Hin.
    destruct (reach_split _ _ _ _ _ _ _ _ Hrun)
      as (w1 & a & w2 & acts2 & Hinv1 & Hstep & _).
    destruct (step_event_pc _ _ _ _ Hstep) as (vs1 & Hs1 & Hpc1 & _).
    destruct (trace_facts _ _ _ _ Hinv1 Hs1) as (_ & _ & _ & _ & _ & HC & _).
    apply HC in Hin. rewrite Hpc1 in Hin. by destruct Hin as [_ [|]].
  - intros tr1 tr2 ->.
    destruct (reach_split _ _ _ _ _ _ _ _ Hrun)
      as (w1 & a & w2 & acts2 & Hinv1 & Hstep & _ & Hrun1 & _).
    destruct (step_event_pc _ _ _ _ Hstep) as (vs1 & j & Hs1 & Hpc1 & Hj).
    destruct (trace_facts _ _ _ _ Hinv1 Hs1)
      as (_ & _ & HB & _ & _ & HC & _ & HU).
    assert (Hc1 : created (vs_pc vs1) = true) by by rewrite Hpc1.
    destruct (components_fixed_run _ _ _ _ _ _ Hs1 Hc1
                (heap_sims _ (inv_heap _ _ Hinv1) _ _ Hs1) Hrun1)
      as (vs & Hs & Hcs & _).
    split_and!.
    + apply (holds_lock_holding _ w1); [done|]. exists vs1. by rewrite Hpc1.
    + apply HB. by rewrite Hpc1.
    + intros c Hin. apply list_elem_of_split in Hin as (tr2a & tr2b & ->).
      destruct (Hcomp (tr1 ++ ERelease s :: tr2a) tr2b c) as [[_ Hno] _].
      { by rewrite <-app_assoc. }
      apply Hno. set_solver.
    + exists vs. split; [done|]. rewrite Hcs. split.
      * rewrite HU. unfold undone. rewrite Hpc1.
        apply take_ge. by apply lookup_ge_None.
      * intros c Hc. apply HC. rewrite Hpc1. split; [done|]. by left.
Qed.


(** ** A thread that is over stays where it is *)

Lemma terminal_step w a e w' s vs :
  w_sims w !! s = Some vs →
  vs_pc vs = PDone ∨ (∃ x, vs_pc vs = PFailed x) → s < w_next w →
  step w a = Some (e, w') →
  ∃ vs', w_sims w' !! s = Some vs' ∧ vs_pc vs' = vs_pc vs ∧
         vs_building vs' = vs_building vs ∧ s < w_next w'.
Proof.
  intros Hs Hpc Hlt Hstep.
  step_cases Hstep; simpl.
  all: lookup_cases; simplify_eq/=.
  all: try lia.
  all: try by (destruct Hpc as [?|[? ?]]; congruence).
  all: try by (eexists; split_and!; [done..|simpl; lia]).
Qed.

Lemma terminal_run acts w tr w' s vs :
  w_sims w !! s = Some vs →
  vs_pc vs = PDone ∨ (∃ x, vs_pc vs = PFailed x) → s < w_next w →
  run w acts = Some (tr, w') →
  ∃ vs', w_sims w' !! s = Some vs' ∧ vs_pc vs' = vs_pc vs ∧
         vs_building vs' = vs_building vs.
Proof.
  revert w tr vs. induction acts as [|a acts IH]; intros w tr vs Hs Hpc Hlt Hrun;
    simpl in Hrun.
  - simplify_eq. eauto.
  - destruct (step w a) as [[e w1]|] eqn:Hstep; simpl in Hrun; [|done].
    destruct (run w1 acts) as [[tr1 w2]|] eqn:Hrest; simpl in Hrun; [|done].
    simplify_eq.
    destruct (terminal_step _ _ _ _ _ _ Hs Hpc Hlt Hstep)
      as (vs1 & Hs1 & Hpc1 & Hb1 & Hlt1).
    assert (Hpc' : vs_pc vs1 = PDone ∨ (∃ x, vs_pc vs1 = PFailed x))
      by by rewrite Hpc1.
    destruct (IH _ _ _ Hs1 Hpc' Hlt1 Hrest) as (vs2 & ? & ? & ?).
    exists vs2. split_and!; [done|congruence|congruence].
Qed.

Lemma create_sim_blocked w :
  viz_lock (w_viz w) = true → create_sim w = Blocked.
Proof. intros Hl. unfold create_sim. simpl. by rewrite Hl. Qed.

(** C4, as the code has it.  [create_sim()] takes the build lock on the
    calling path, before it instantiates the template: on a held lock the
    call does not return, on a free lock it returns with the lock held, the
    components built and the thread started at [runner], without waiting
    for the build (the session is still building and has no simulator yet).
    The thread itself never waits: a session without a next action either
    stands before line 22 on a held lock or its thread is over, and no
    action of a started thread is the acquisition of the lock. *)
Theorem create_sim_acquires_on_calling_path w :
  (viz_lock (w_viz w) = true → create_sim w = Blocked) ∧
  (viz_lock (w_viz w) = false →
   ∃ w' vs, create_sim w = Returned (w_next w, w') ∧
            w_sims w' !! w_next w = Some vs ∧
            vs_pc vs = PBuild ∧ vs_building vs = true ∧ vs_sim vs = None ∧
            viz_lock (w_viz w') = true) ∧
  (∀ s vs, w_sims w !! s = Some vs → vs_pc vs = PAcquire →
           viz_lock (w_viz w) = true → session_step w s = None) ∧
  (∀ s vs, w_sims w !! s = Some vs → session_step w s = None →
           (vs_pc vs = PAcquire ∧ viz_lock (w_viz w) = true) ∨
           vs_pc vs = PDone ∨ ∃ x, vs_pc vs = PFailed x) ∧
  (∀ s vs e w', w_sims w !! s = Some vs → created (vs_pc vs) = true →
                session_step w s = Some (e, w') →
                e ≠ EAcquire s ∧
                (viz_lock (w_viz w') = true → viz_lock (w_viz w) = true)).
Proof.
  split_and!.
  - apply create_sim_blocked.
  - intros Hl.
    destruct (create_sim_returns w Hl)
      as (w' & vs & ? & ? & _ & ? & ? & _ & ? & ? & _).
    exists w', vs. done.
  - intros s vs Hs Hpc Hl. unfold session_step. rewrite Hs. simpl.
    by rewrite Hpc, Hl.
  - intros s vs Hs Hstep. unfold session_step in Hstep.
    rewrite Hs in Hstep. simpl in Hstep.
    destruct (vs_pc vs) eqn:Hpc; repeat case_match; simplify_eq; eauto.
  - intros s vs e w' Hs Hc Hstep. unfold session_step in Hstep.
    rewrite Hs in Hstep. simpl in Hstep.
    destruct (vs_pc vs) eqn:Hpc; repeat case_match; simplify_eq/=.
    all: split; [done|]; simpl; try by auto.
    intros. congruence.
Qed.

(** C5. What the code does when the simulator class raises at line 35: the
    thread dies there, the session stays in the building state for ever and
    never simulates a quantum, and the lock that [__init__] took is never
    released, so every later [create_sim()] blocks. *)
Theorem build_failure_keeps_lock model dt Simulator acts tr w s vs :
  run (init_world model dt Simulator) acts = Some (tr, w) →
  w_sims w !! s = Some vs → vs_pc vs = PBuild →
  viz_Simulator (w_viz w) (viz_model (w_viz w)) (vs_dt vs) = None →
  ∃ w',
    step w (ASession s) = Some (ERaise s BuildError, w') ∧
    w_sims w' !! s = Some (set_pc (PFailed BuildError) vs) ∧
    session_step w' s = None ∧
    ∀ acts' tr' w'',
      run w' acts' = Some (tr', w'') →
      viz_lock (w_viz w'') = true ∧
      create_sim w'' = Blocked ∧
      (∃ vs', w_sims w'' !! s = Some vs' ∧ vs_pc vs' = PFailed BuildError ∧
              vs_building vs' = true) ∧
      (ERelease s ∉ tr ++ ERaise s BuildError :: tr') ∧
      (ERunning s ∉ tr ++ ERaise s BuildError :: tr') ∧
      (ERun s ∉ tr ++ ERaise s BuildError :: tr').
Proof.
  intros Hrun Hs Hpc Hsim.
  pose proof (world_inv_reachable _ _ _ _ _ _ Hrun) as Hinv.
  set (w' := with_sim s (set_pc (PFailed BuildError) vs) w).
  assert (Hstep : step w (ASession s) = Some (ERaise s BuildError, w')).
  { simpl. unfold session_step. rewrite Hs. simpl. by rewrite Hpc, Hsim. }
  assert (Hs' : w_sims w' !! s = Some (set_pc (PFailed BuildError) vs)).
  { simpl. by rewrite lookup_insert_eq. }
  pose proof (world_inv_step _ _ _ _ _ Hinv Hstep) as Hinv'.
  exists w'. split_and!; [done|done| |].
  - unfold session_step. by rewrite Hs'.
  - intros acts' tr' w'' Hrun'.
    pose proof (world_inv_run _ _ _ _ _ Hinv' Hrun') as Hinv''.
    rewrite <-app_assoc in Hinv''. simpl in Hinv''.
    destruct (terminal_run acts' w' tr' w'' s _ Hs') as (vs'' & Hs'' & Hpc'' & Hb'').
    { right. by eexists. }
    { apply (heap_sims _ (inv_heap _ _ Hinv') _ _ Hs'). }
    { done. }
    simpl in Hpc'', Hb''.
    assert (Hlock : viz_lock (w_viz w'') = true).
    { destruct (viz_lock (w_viz w'')) eqn:Hl; [done|].
      pose proof (mutex_free _ (inv_mutex _ _ Hinv'') _ _ Hl Hs'') as Hh.
      by rewrite Hpc'' in Hh. }
    destruct (trace_facts _ _ _ _ Hinv'' Hs'') as (_ & HR & _ & HG & HN & _).
    rewrite Hpc'' in HR, HG, HN. simpl in *.
    split_and!.
    + done.
    + by apply create_sim_blocked.
    + exists vs''. split_and!; [done..|].
      rewrite Hb''. rewrite (session_building _ _ (inv_sessions _ _ Hinv _ _ Hs)).
      by rewrite Hpc.
    + intros Hin. by apply HR in Hin.
    + intros Hin. by apply HG in Hin.
    + intros Hin. by apply HN in Hin.
Qed.

(** ** The stop request *)

(** C7. Once [finish()] was called on a session the flag stays set, and
    from then on the session simulates at most the one quantum that was
    under way, none when the thread was not inside the loop body.  When the
    call comes before line 43 the session never simulates a quantum.  A
    thread that finds the flag set at its first line still builds the
    simulator, runs [remove_nengo_objects] on every component, which leaves
    the model it built on with all of them applied to it in the order of the
    list, releases the lock, leaves the building state and then leaves the
    loop at its first test, its simulator not run; inside the loop body it
    ends the one quantum and leaves at the next test. *)
Theorem finish_stops_run_loop s :
  (∀ w vs acts tr w',
      w_sims w !! s = Some vs → vs_finished vs = true → s < w_next w →
      run w acts = Some (tr, w') →
      runs s tr ≤ in_flight (vs_pc vs) ∧ runs s tr ≤ 1 ∧
      ∃ vs', w_sims w' !! s = Some vs' ∧ vs_finished vs' = true) ∧
  (∀ model dt Simulator acts tr w tr1 tr2,
      run (init_world model dt Simulator) acts = Some (tr, w) →
      tr = tr1 ++ EFinish s :: tr2 →
      runs s tr2 ≤ 1 ∧ (ERunning s ∉ tr1 → runs s tr = 0)) ∧
  (∀ w vs sm,
      w_sims w !! s = Some vs → vs_pc vs = PBuild → vs_finished vs = true →
      viz_lock (w_viz w) = true →
      viz_Simulator (w_viz w) (viz_model (w_viz w)) (vs_dt vs) = Some sm →
      ∃ w',
        run w (replicate (4 + length (vs_components vs)) (ASession s)) =
          Some (EBuild s :: (EUndo s <$> vs_components vs) ++
                  [ERelease s; ERunning s; EExit s], w') ∧
        viz_lock (w_viz w') = false ∧
        viz_model (w_viz w') =
          remove_all (vs_components vs) (viz_model (w_viz w)) ∧
        w_sims w' !! s =
          Some (set_pc PDone
                  (set_building false (set_sim (Some sm) vs))) ∧
        session_step w' s = None) ∧
  (∀ w vs,
      w_sims w !! s = Some vs → vs_pc vs = PRun → vs_finished vs = true →
      ∃ w', run w [ASession s; ASession s] = Some ([ERun s; EExit s], w') ∧
            w_sims w' !! s =
              Some (set_pc PDone
                      (set_sim ((λ sm, Simulation_run sm quantum) <$> vs_sim vs)
                               vs))).
Proof.
  split_and!.
  - intros w vs acts tr w' Hs Hf Hlt Hrun.
    destruct (finished_run _ _ _ _ _ _ Hs Hf Hlt Hrun) as [Hle Hex].
    split_and!; [done| |done].
    destruct (vs_pc vs); simpl in Hle; lia.
  - intros model dt Simulator acts tr w tr1 tr2 Hrun ->.
    destruct (reach_split _ _ _ _ _ _ _ _ Hrun)
      as (w1 & a & w2 & acts2 & Hinv1 & Hstep & Hinv2 & _ & Hrun2).
    destruct (step_event_pc _ _ _ _ Hstep) as (vs1 & Hs1 & Hs2).
    assert (Hlt2 : s < w_next w2)
      by apply (heap_sims _ (inv_heap _ _ Hinv2) _ _ Hs2).
    destruct (finished_run _ _ _ _ _ _ Hs2 eq_refl Hlt2 Hrun2) as [Hle _].
    simpl in Hle. split.
    + destruct (vs_pc vs1); simpl in Hle; lia.
    + intros Hnot.
      destruct (trace_facts _ _ _ _ Hinv1 Hs1) as (_ & _ & _ & HG & HR & _).
      assert (Hr : running (vs_pc vs1) = false).
      { destruct (running (vs_pc vs1)) eqn:Hr; [|done].
        destruct Hnot. by apply HG. }
      change (EFinish s :: tr2) with ([EFinish s] ++ tr2).
      rewrite !runs_app.
      assert (runs s tr1 = 0) as ->.
      { apply runs_zero. intros Hin. apply HR in Hin. congruence. }
      assert (runs s [EFinish s] = 0) as -> by done.
      destruct (vs_pc vs1); simpl in *; try done; lia.
  - intros w vs sm Hs Hpc Hf Hl Hsim.
    destruct (runner_build_run _ _ _ _ Hs Hpc Hl Hsim)
      as (w1 & Hrun1 & Hl1 & Hm1 & Hs1).
    set (vs1 := set_pc PLoop (set_building false (set_sim (Some sm) vs))) in *.
    pose proof (loop_step w1 s vs1 Hs1 eq_refl) as Hstep. simpl in Hstep.
    rewrite Hf in Hstep.
    eexists. split_and!.
    + replace (4 + length (vs_components vs))
        with (3 + length (vs_components vs) + 1) by lia.
      rewrite replicate_add.
      replace (EBuild s :: (EUndo s <$> vs_components vs) ++
                 [ERelease s; ERunning s; EExit s])
        with ((EBuild s :: (EUndo s <$> vs_components vs) ++
                 [ERelease s; ERunning s]) ++ [EExit s]).
      2:{ simpl. f_equal. by rewrite <-app_assoc. }
      eapply run_app_Some; [exact Hrun1|].
      eapply run_cons_Some; [exact Hstep|done].
    + done.
    + exact Hm1.
    + simpl. by rewrite lookup_insert_eq.
    + unfold session_step. simpl. by rewrite lookup_insert_eq.
  - intros w vs Hs Hpc Hf.
    pose proof (run_step w s vs Hs Hpc) as Hstep1.
    set (vs1 := set_pc PLoop
                  (set_sim ((λ sm, Simulation_run sm quantum) <$> vs_sim vs) vs))
      in *.
    set (w1 := with_sim s vs1 w) in *.
    assert (Hs1 : w_sims w1 !! s = Some vs1) by (simpl; by rewrite lookup_insert_eq).
    pose proof (loop_step w1 s vs1 Hs1 eq_refl) as Hstep2. simpl in Hstep2.
    rewrite Hf in Hstep2.
    eexists. split.
    + eapply run_cons_Some; [exact Hstep1|].
      eapply run_cons_Some; [exact Hstep2|done].
    + simpl. by rewrite lookup_insert_eq.
Qed.

End Properties.

(** * The claims on the toy organizer *)

Lemma toy_run : run toy_init toy_schedule = Some (toy_trace, toy_final).
Proof. vm_compute. reflexivity. Qed.

Lemma toy_failing_run :
  run toy_failing_world toy_failing_schedule =
    Some (toy_failing_trace, toy_failing_built).
Proof. vm_compute. reflexivity. Qed.

(** C1 as stated fails: an entry appended while [create_sim()] is under
    way reaches the new session.  The template holds one entry when the
    call comes, and the session owns two components when the call
    returns. *)
Lemma create_sim_sees_later_entries :
  ∃ w1 tr w2 vs,
    length (viz_template (w_viz toy_init)) = 1 ∧
    step toy_init ACreateSim = Some (ECall 0, w1) ∧
    run w1 [ASlider [ArgObject 7] []; ASession 0; ASession 0; ASession 0;
            ASession 0]
      = Some (tr, w2) ∧
    last tr = Some (ESpawn 0) ∧
    w_sims w2 !! 0 = Some vs ∧
    length (vs_components vs) = 2 ∧
    length (vs_components vs) ≠ length (viz_template (w_viz toy_init)).
Proof.
  eexists _, _, _, _. split; [reflexivity|].
  split; [vm_compute; reflexivity|].
  split; [vm_compute; reflexivity|].
  split; [reflexivity|].
  split; [vm_compute; reflexivity|].
  split; [reflexivity|]. simpl. lia.
Qed.

(** C1 on the toy organizer: on the free lock of [toy_world] the call
    returns a session with one component per entry; on the toy schedule no
    configuration call comes between the call and the return of the first
    [create_sim()], so the first session follows the template of the moment
    of the call. *)
Lemma create_sim_template_fidelity_witness :
  (∃ w' vs,
      create_sim toy_world = Returned (w_next toy_world, w') ∧
      w_sims w' !! w_next toy_world = Some vs ∧
      comp_spec <$> vs_components vs = viz_template (w_viz toy_world) ∧
      length (vs_components vs) = length (viz_template (w_viz toy_world))) ∧
  (∃ vs acts0 wc,
      w_sims toy_final !! 0 = Some vs ∧
      run toy_init acts0 = Some (take 1 toy_trace, wc) ∧
      comp_spec <$> vs_components vs = viz_template (w_viz wc) ∧
      NoDup (comp_id <$> vs_components vs)).
Proof.
  destruct (create_sim_template_fidelity (H := toy)) as [Hfree Hsched].
  split.
  - destruct (Hfree toy_world) as (w' & vs & H1 & H2 & H3 & H4 & _).
    + reflexivity.
    + exists w', vs. repeat split; assumption.
  - destruct (w_sims toy_final !! 0) as [vs|] eqn:Hs;
      [|vm_compute in Hs; discriminate].
    destruct (Hsched [] default_dt nengo_Simulator toy_schedule toy_trace
                toy_final 0 vs (take 1 toy_trace) (take 4 (drop 2 toy_trace))
                (drop 7 toy_trace) toy_run Hs)
      as (acts0 & wc & acts1 & wr & Hrun0 & _ & _ & _ & _ & Hsame & Hnd & _).
    + reflexivity.
    + exists vs, acts0, wc. split; [reflexivity|]. split; [exact Hrun0|].
      split; [|exact Hnd]. apply Hsame. reflexivity.
Defined.

(** C2 as stated fails: registered again under the same id, a component
    is handed out by a second pop of that id. *)
Lemma pop_component_again_after_add :
  let c := mkComponent 5 0 (SimControl, [], []) in
  let v1 := (add (w_viz toy_world) c).1 in
  let v2 := (pop_component v1 5).1 in
  let v3 := (add v2 c).1 in
  (pop_component v1 5).2 = Return c ∧
  (pop_component v3 5).2 = Return c ∧
  (registry_calls 5 (w_viz toy_world)
     [CallAdd c; CallPop 5; CallAdd c; CallPop 5]).2 = 2.
Proof. split_and!; vm_compute; reflexivity. Qed.

(** C2 on the toy organizer: without a new registration the second pop of
    id 1 raises, and on the toy schedule one pop of id 1 returns for the
    one component constructed under it. *)
Lemma pop_component_once_per_registration_witness :
  (registry_calls 1 (w_viz toy_building_world) [CallPop 1; CallPop 1]).2 ≤ 1 ∧
  pops 1 toy_trace ≤ constructions 1 toy_trace.
Proof.
  destruct (pop_component_once_per_registration (H := toy)
              (w_viz toy_building_world) 1)
    as (_ & _ & _ & _ & _ & _ & Hcalls & _ & Hrun & _).
  split.
  - apply Hcalls. reflexivity.
  - apply (Hrun [] default_dt nengo_Simulator toy_schedule toy_trace toy_final).
    exact toy_run.
Defined.

(** C3 as stated fails: [add] hands back None, not an id. *)
Lemma add_returns_no_id :
  ¬ ∃ k, (add (w_viz toy_world) (mkComponent 5 0 (SimControl, [], []))).2
         = PyInt k.
Proof. intros [k Hk]. simpl in Hk. discriminate. Qed.

Lemma add_registers_under_identity_witness :
  viz_components
    (add (w_viz toy_world) (mkComponent 5 0 (SimControl, [], []))).1 !! 5
    = Some (mkComponent 5 0 (SimControl, [], [])) ∧
  viz_components (w_viz toy_world) !! w_next toy_world = None.
Proof.
  destruct (add_registers_under_identity (H := toy) (w_viz toy_world)
              (mkComponent 5 0 (SimControl, [], [])))
    as (_ & Hin & _ & _ & _ & _ & Hfresh).
  split; [exact Hin|].
  destruct (Hfresh toy_world 0 (SimControl, [], []) 0) as (_ & Hnone & _).
  - split; simpl; intros *; rewrite ?lookup_empty; done.
  - exact Hnone.
Defined.

(** C4 as stated fails: while the first session builds, a second
    [create_sim()] does not return. *)
Lemma create_sim_blocks_while_building :
  (∃ vs, w_sims toy_building_world !! 0 = Some vs ∧ vs_building vs = true) ∧
  ¬ ∃ r, create_sim toy_building_world = Returned r.
Proof.
  split.
  - eexists. split; [vm_compute; reflexivity|reflexivity].
  - intros [r Hr]. vm_compute in Hr. discriminate.
Qed.

Lemma create_sim_acquires_on_calling_path_witness :
  create_sim toy_building_world = Blocked ∧
  ∃ w' vs, create_sim toy_world = Returned (w_next toy_world, w') ∧
           w_sims w' !! w_next toy_world = Some vs ∧
           vs_pc vs = PBuild ∧ vs_building vs = true ∧ vs_sim vs = None ∧
           viz_lock (w_viz w') = true.
Proof.
  destruct (create_sim_acquires_on_calling_path (H := toy) toy_building_world)
    as (Hheld & _).
  destruct (create_sim_acquires_on_calling_path (H := toy) toy_world)
    as (_ & Hfree & _).
  split.
  - apply Hheld. reflexivity.
  - apply Hfree. reflexivity.
Defined.

(** C5 on the failing organizer: after the build raised, the lock is still
    held and the next [create_sim()] blocks. *)
Lemma build_failure_keeps_lock_witness :
  ∃ w', step toy_failing_built (ASession 0) = Some (ERaise 0 BuildError, w') ∧
        viz_lock (w_viz w') = true ∧ create_sim w' = Blocked.
Proof.
  destruct (build_failure_keeps_lock (H := toy) [] default_dt failing_Simulator
              toy_failing_schedule toy_failing_trace toy_failing_built 0
              (mkVizSim default_dt true
                 [mkComponent 1 0 (SimControl, [], [])] false None PBuild))
    as (w' & Hstep & _ & _ & Hlater).
  - exact toy_failing_run.
  - vm_compute. reflexivity.
  - reflexivity.
  - reflexivity.
  - exists w'. split; [exact Hstep|].
    destruct (Hlater [] [] w' eq_refl) as (Hlock & Hblocked & _).
    split; assumption.
Defined.

(** C6 on the toy schedule, for the first session. *)
Lemma undo_before_running_witness :
  ∃ vs, w_sims toy_final !! 0 = Some vs ∧
        undos 0 toy_trace = vs_components vs ∧ EBuild 0 ∈ toy_trace ∧
        viz_model (w_viz toy_final) = model_after (H := toy) [] toy_trace.
Proof.
  destruct (w_sims toy_final !! 0) as [vs|] eqn:Hs;
    [|vm_compute in Hs; discriminate].
  destruct (undo_before_running (H := toy) [] default_dt nengo_Simulator
              toy_schedule toy_trace toy_final 0 vs toy_run Hs)
    as (_ & _ & _ & Hdone & _ & _ & Hmodel & _).
  exists vs. split; [reflexivity|]. split_and!; [apply Hdone..|exact Hmodel].
  all: vm_compute in Hs; injection Hs as <-; reflexivity.
Defined.

(** C7 on the toy schedule: the second session is told to finish while it
    builds and never simulates a quantum.  And on the toy organizer with
    its first session told to finish before the build: the thread builds,
    takes the objects of both components out of the model, releases the
    lock and leaves the loop. *)
Lemma finish_stops_run_loop_witness :
  runs 2 toy_trace = 0 ∧
  ∃ w1 tr w',
    step toy_building_world (AFinish 0) = Some (EFinish 0, w1) ∧
    viz_model (w_viz w1) = [2; 1] ∧
    run w1 (replicate 6 (ASession 0)) = Some (tr, w') ∧
    last tr = Some (EExit 0) ∧
    viz_model (w_viz w') = [] ∧ viz_lock (w_viz w') = false.
Proof.
  destruct (finish_stops_run_loop (H := toy) 2) as (_ & Hreach & _).
  destruct (finish_stops_run_loop (H := toy) 0) as (_ & _ & Hbuild & _).
  split.
  - destruct (Hreach [] default_dt nengo_Simulator toy_schedule toy_trace
                toy_final (take 20 toy_trace) (drop 21 toy_trace) toy_run)
      as [_ Hzero].
    + reflexivity.
    + apply Hzero. apply (bool_decide_unpack _). vm_compute. exact I.
  - set (vs := mkVizSim (H := toy) default_dt true
                 [mkComponent 1 0 (SimControl, [], []);
                  mkComponent 2 0 (Slider, [ArgObject 7], [])]
                 true None PBuild).
    set (w1 := with_sim 0 vs toy_building_world).
    destruct (Hbuild w1 vs 0) as (w' & Hrun & Hl & Hm & _).
    + vm_compute. reflexivity.
    + reflexivity.
    + reflexivity.
    + reflexivity.
    + reflexivity.
    + exists w1, (EBuild 0 :: (EUndo 0 <$> vs_components vs) ++
                      [ERelease 0; ERunning 0; EExit 0]), w'.
      split; [vm_compute; reflexivity|].
      split; [reflexivity|]. split; [exact Hrun|].
      split; [reflexivity|]. split; [|exact Hl].
      rewrite Hm. reflexivity.
Defined.

(** C8 on the toy organizer: the session created before two configuration
    calls keeps its two components. *)
Lemma configuration_appends_one_witness :
  ∃ tr w',
    run toy_building_world [ASlider [] []; AValue [ArgInt 1] []]
      = Some (tr, w') ∧
    length (viz_template (w_viz w')) = 4 ∧
    ∃ vs', w_sims w' !! 0 = Some vs' ∧ length (vs_components vs') = 2.
Proof.
  destruct (run toy_building_world [ASlider [] []; AValue [ArgInt 1] []])
    as [[tr w']|] eqn:Hrun; [|vm_compute in Hrun; discriminate].
  destruct (configuration_appends_one (H := toy) toy_building_world [] [])
    as (_ & _ & _ & _ & _ & Hfixed).
  destruct (Hfixed 0
              (mkVizSim default_dt true
                 [mkComponent 1 0 (SimControl, [], []);
                  mkComponent 2 0 (Slider, [ArgObject 7], [])]
                 false None PBuild)
              [ASlider [] []; AValue [ArgInt 1] []] tr w')
    as (vs' & Hs' & Hcs').
  - vm_compute. reflexivity.
  - reflexivity.
  - vm_compute. lia.
  - exact Hrun.
  - exists tr, w'. split; [reflexivity|]. split.
    + vm_compute in Hrun. injection Hrun as <- <-. reflexivity.
    + exists vs'. split; [exact Hs'|]. rewrite Hcs'. reflexivity.
Defined.

(** C9 on the toy schedule: at the instant the second session got through
    line 22 the first one no longer held the lock. *)
Lemma build_lock_exclusive_witness : ¬ holds_lock 0 (take 13 toy_trace).
Proof.
  destruct (build_lock_exclusive (H := toy) [] default_dt nengo_Simulator
              toy_schedule toy_trace toy_final toy_run) as (_ & _ & Hfree & _).
  apply (Hfree (take 13 toy_trace) (drop 14 toy_trace) 2 0).
  reflexivity.
Defined.

(** C10 on the toy schedule: the first component of the first session is
    built while that session holds the lock. *)
Lemma components_built_under_lock_witness : holds_lock 0 (take 3 toy_trace).
Proof.
  destruct (components_built_under_lock (H := toy) [] default_dt
              nengo_Simulator toy_schedule toy_trace toy_final 0 toy_run)
    as (Hcomp & _).
  destruct (Hcomp (take 3 toy_trace) (drop 4 toy_trace)
              (mkComponent 1 0 (SimControl, [], []))) as [Hh _].
  - reflexivity.
  - exact Hh.
Defined.

(** * Properties of the rest of [viz.py] *)

Section RestProperties.
Context `{Nengo}.

Implicit Types (w : World) (v : Viz) (vs : VizSim) (tr : list event)
  (acts : list action) (s id : nat) (c : Component).

(** ** The stop flag along a schedule *)

Lemma finish_inv_step tr w a e w' :
  heap_inv w → finish_inv tr w → step w a = Some (e, w') →
  finish_inv (tr ++ [e]) w'.
Proof.
  intros Hheap [Hf Hu] Hstep.
  assert (Hnext : EFinish (w_next w) ∉ tr).
  { apply Hu. destruct (w_sims w !! w_next w) eqn:Hs; [|done].
    apply (heap_sims _ Hheap) in Hs. lia. }
  split.
  - intros s' vs'. rewrite elem_of_app, list_elem_of_singleton.
    step_cases Hstep; simpl.
    all: lookup_cases; intros; simplify_eq/=.
    all: try by (rewrite Hf by done; naive_solver).
    all: try by naive_solver.
  - intros s'. rewrite elem_of_app, list_elem_of_singleton.
    step_cases Hstep; simpl.
    all: lookup_cases; intros; simplify_eq/=.
    all: try by (intros [?|?]; [by eapply Hu|done]).
    intros [?|?]; [by eapply Hu|congruence].
Qed.

Lemma finish_inv_reachable model dt Simulator acts tr w :
  run (init_world model dt Simulator) acts = Some (tr, w) → finish_inv tr w.
Proof.
  intros Hrun.
  assert (Hboth : world_inv tr w ∧ finish_inv tr w); [|by destruct Hboth].
  apply (run_invariant (λ tr w, world_inv tr w ∧ finish_inv tr w))
    with (acts := acts) (tr0 := []) (w0 := init_world model dt Simulator);
    [|split|done].
  { intros tr' w1 a e w2 [Hi Hr] Hstep. split.
    - by eapply world_inv_step.
    - eapply finish_inv_step; [|done..]. apply (inv_heap _ _ Hi). }
  { apply world_inv_init. }
  split; simpl.
  - intros s vs. by rewrite lookup_empty.
  - intros s _. apply not_elem_of_nil.
Qed.


(** X1. Along every schedule the template is the control entry that
    [Viz.__init__] put there followed by the entries of the [slider()] and
    [value()] calls made so far, in the order of the calls. *)
Theorem template_follows_configuration model dt Simulator acts tr w :
  run (init_world model dt Simulator) acts = Some (tr, w) →
  viz_template (w_viz w) = (SimControl, [], []) :: configs tr ∧
  length (viz_template (w_viz w)) = S (length (configs tr)) ∧
  (∀ tr1 tr2 spec, tr = tr1 ++ EConfig spec :: tr2 →
      viz_template (w_viz w) !! S (length (configs tr1)) = Some spec).
Proof.
  intros Hrun. pose proof (template_inv_reachable _ _ _ _ _ _ Hrun) as Ht.
  unfold template_inv in Ht. rewrite Ht. split_and!; [done|done|].
  intros tr1 tr2 spec ->. rewrite configs_app. simpl.
  change (configs (EConfig spec :: tr2)) with (spec :: configs tr2).
  by rewrite list_lookup_middle.
Qed.

(** X2. The components of a session follow the template as it was when
    the loop of [__init__] ended (line 31): one component per entry, in
    order, the first a control component.  Entries appended afterwards do
    not reach the session; entries appended while the constructor waited
    for the lock or was inside its loop do. *)
Theorem session_components_follow_template
    model dt Simulator acts tr w s vs tr1 tr2 :
  run (init_world model dt Simulator) acts = Some (tr, w) →
  w_sims w !! s = Some vs →
  tr = tr1 ++ ESpawn s :: tr2 →
  comp_spec <$> vs_components vs = (SimControl, [], []) :: configs tr1 ∧
  length (vs_components vs) = S (length (configs tr1)) ∧
  ∃ c cs, vs_components vs = c :: cs ∧ comp_spec c = (SimControl, [], []).
Proof.
  intros Hrun Hs ->.
  destruct (reach_split_run _ _ _ _ _ _ _ _ Hrun)
    as (acts1 & w1 & a & w2 & acts2 & Hrun1 & Hstep & Hrun2 & Hrest).
  pose proof (template_inv_reachable _ _ _ _ _ _ Hrun1) as Ht.
  pose proof (world_inv_reachable _ _ _ _ _ _ Hrun1) as Hinv1.
  pose proof (world_inv_reachable _ _ _ _ _ _ Hrun2) as Hinv2.
  unfold template_inv in Ht.
  assert (Hspecs : ∃ vs1, w_sims w2 !! s = Some (set_pc PBuild vs1) ∧
            comp_spec <$> vs_components vs1 = viz_template (w_viz w1)).
  { step_cases Hstep.
    match goal with
    | Hv : w_sims w1 !! s = Some ?vs0, Hp : vs_pc ?vs0 = PInit _ |- _ =>
        exists vs0; split;
        [simpl; by rewrite lookup_alter_eq, Hv|];
        pose proof (inv_sessions _ _ Hinv1 _ _ Hv) as Hsess;
        apply prefix_length_eq; [apply (session_template _ _ Hsess)|];
        rewrite length_fmap, <-(session_iterator _ _ Hsess _ Hp);
        by apply lookup_ge_None
    end. }
  destruct Hspecs as (vs1 & Hs2 & Hspecs).
  assert (Hcs : vs_components vs = vs_components vs1).
  { by apply (components_later _ _ _ _ _ _ _ _ Hinv2 Hs2 eq_refl Hrest Hs). }
  rewrite Hcs. rewrite <-Ht, <-Hspecs. split_and!; [done|..].
  - rewrite <-(length_fmap comp_spec), Hspecs, Ht. done.
  - rewrite Ht in Hspecs.
    destruct (vs_components vs1) as [|c cs]; [done|].
    exists c, cs. split; [done|]. simpl in Hspecs. congruence.
Qed.

(** X3. Registering a component and popping its id gives the component
    back.  When the id was not a key before, the registry is again what it
    was; when it was, the mapping that [add] replaced is gone. *)
Theorem add_pop_round_trip v c :
  (pop_component (add v c).1 (comp_id c)).2 = Return c ∧
  viz_components (pop_component (add v c).1 (comp_id c)).1 =
    delete (comp_id c) (viz_components v) ∧
  (viz_components v !! comp_id c = None →
   viz_components (pop_component (add v c).1 (comp_id c)).1 =
     viz_components v) ∧
  (∀ k, k ≠ comp_id c →
        viz_components (pop_component (add v c).1 (comp_id c)).1 !! k =
          viz_components v !! k).
Proof.
  unfold pop_component, add. simpl. rewrite lookup_insert_eq. simpl.
  rewrite delete_insert_eq. split_and!; try done.
  - intros Hnone. by apply delete_id.
  - intros k Hk. by rewrite lookup_delete_ne.
Qed.



(** X6. The run loop is left only on a stop request: a thread leaves the
    loop only after [finish()] was called on its session, it goes into the
    loop body only while no [finish()] was called, and the flag of a
    session is set exactly when [finish()] was called on it. *)
Theorem exit_only_after_finish model dt Simulator acts tr w s :
  run (init_world model dt Simulator) acts = Some (tr, w) →
  (∀ tr1 tr2, tr = tr1 ++ EExit s :: tr2 → EFinish s ∈ tr1) ∧
  (∀ tr1 tr2, tr = tr1 ++ ECheck s :: tr2 → EFinish s ∉ tr1) ∧
  (EFinish s ∉ tr → EExit s ∉ tr) ∧
  (∀ vs, w_sims w !! s = Some vs →
         (vs_finished vs = true ↔ EFinish s ∈ tr) ∧
         (vs_pc vs = PDone → EFinish s ∈ tr)).
Proof.
  intros Hrun.
  assert (Hexit : ∀ tr1 tr2, tr = tr1 ++ EExit s :: tr2 → EFinish s ∈ tr1).
  { intros tr1 tr2 ->.
    destruct (reach_split_run _ _ _ _ _ _ _ _ Hrun)
      as (acts1 & w1 & a & w2 & acts2 & Hrun1 & Hstep & _ & _).
    pose proof (finish_inv_reachable _ _ _ _ _ _ Hrun1) as Hfin.
    destruct (step_event_pc _ _ _ _ Hstep) as (vs1 & Hs1 & _ & Hf).
    by apply (finish_flag _ _ Hfin _ _ Hs1). }
  split_and!; [done|..].
  - intros tr1 tr2 ->.
    destruct (reach_split_run _ _ _ _ _ _ _ _ Hrun)
      as (acts1 & w1 & a & w2 & acts2 & Hrun1 & Hstep & _ & _).
    pose proof (finish_inv_reachable _ _ _ _ _ _ Hrun1) as Hfin.
    destruct (step_event_pc _ _ _ _ Hstep) as (vs1 & Hs1 & _ & Hf).
    intros Hin. apply (finish_flag _ _ Hfin _ _ Hs1) in Hin. congruence.
  - intros Hno Hin. apply list_elem_of_split in Hin as (tr1 & tr2 & ->).
    apply Hno. apply elem_of_app. left. by eapply Hexit.
  - intros vs Hs.
    pose proof (finish_inv_reachable _ _ _ _ _ _ Hrun) as Hfin.
    pose proof (world_inv_reachable _ _ _ _ _ _ Hrun) as Hinv.
    split; [by apply (finish_flag _ _ Hfin)|].
    intros Hpc.
    destruct (trace_history _ _ (inv_trace _ _ Hinv) _ _ Hs) as [n Hn].
    assert (Hin : EExit s ∈ tr).
    { apply (on_path_elem_of s); [simpl; by rewrite bool_decide_eq_true_2|].
      rewrite Hn. unfold history. rewrite Hpc. set_solver. }
    apply list_elem_of_split in Hin as (tr1 & tr2 & ->).
    apply elem_of_app. left. by eapply Hexit.
Qed.

(** ** [__init__] step by step *)

Lemma VizSim_init_loop_viz specs i s w :
  viz_Simulator (w_viz (VizSim_init_loop i specs s w)) = viz_Simulator (w_viz w) ∧
  viz_model (w_viz (VizSim_init_loop i specs s w)) =
    init_all (new_components s (w_next w) specs) (viz_model (w_viz w)).
Proof.
  revert i w. induction specs as [|spec specs IH]; intros i w; [done|].
  rewrite new_components_cons.
  change (VizSim_init_loop i (spec :: specs) s w)
    with (VizSim_init_loop (S i) specs s (new_component i spec s w).2).
  destruct (IH (S i) (new_component i spec s w).2) as [-> ->]. done.
Qed.

(** The loop of lines 25 to 28 as actions of the session. *)
Lemma init_loop_run specs i w s vs :
  w_sims w !! s = Some vs → vs_pc vs = PInit i →
  (∀ k spec, specs !! k = Some spec →
             viz_template (w_viz w) !! (i + k) = Some spec) →
  run w (replicate (length specs) (ASession s)) =
    Some (EComponent s <$> new_components s (w_next w) specs,
          VizSim_init_loop i specs s w).
Proof.
  revert i w vs. induction specs as [|spec specs IH]; intros i w vs Hs Hpc Ht.
  - done.
  - rewrite new_components_cons.
    set (c0 := mkComponent (w_next w) s spec).
    set (w1 := (new_component i spec s w).2).
    assert (Hstep : step w (ASession s) = Some (EComponent s c0, w1)).
    { pose proof (Ht 0 spec eq_refl) as Hi. rewrite Nat.add_0_r in Hi.
      simpl. unfold session_step. rewrite Hs. simpl. by rewrite Hpc, Hi. }
    eapply (run_cons_Some _ _ _ _ w1); [exact Hstep|].
    apply (IH (S i) w1 (set_pc (PInit (S i)) (append_component c0 vs))).
    + simpl. by rewrite lookup_alter_eq, Hs.
    + done.
    + intros k spec' Hk. simpl.
      replace (S (i + k)) with (i + S k) by lia. by apply Ht.
Qed.

(** X7. [create_sim()] is the constructor run without interruption: on a
    free lock the world it returns is the one reached by the call, the
    acquisition, one action per template entry and the start of the thread,
    with the events in that order; on a held lock the session has no action
    after the call. *)
Theorem create_sim_is_uninterrupted_init w :
  (viz_lock (w_viz w) = false →
   ∃ w', create_sim w = Returned (w_next w, w') ∧
         run w (ACreateSim ::
                  replicate (2 + length (viz_template (w_viz w)))
                            (ASession (w_next w))) =
           Some (ECall (w_next w) :: EAcquire (w_next w) ::
                   (EComponent (w_next w) <$>
                      new_components (w_next w) (S (w_next w))
                        (viz_template (w_viz w))) ++
                   [ESpawn (w_next w)], w')) ∧
  (viz_lock (w_viz w) = true →
   create_sim w = Blocked ∧
   run w [ACreateSim; ASession (w_next w)] = None).
Proof.
  split.
  - intros Hl. set (s := w_next w). set (t := viz_template (w_viz w)).
    set (w0 := (VizSim_alloc w).2).
    set (w1 := acquire s w0).
    set (w2 := VizSim_init_loop 0 t s w1).
    exists (spawn s w2). split.
    { unfold create_sim. simpl. by rewrite Hl. }
    assert (Hs0 : w_sims w0 !! s = Some (VizSim_new (w_viz w)))
      by (simpl; by rewrite lookup_insert_eq).
    assert (Hs1 : w_sims w1 !! s = Some (set_pc (PInit 0) (VizSim_new (w_viz w))))
      by (simpl; by rewrite lookup_alter_eq, lookup_insert_eq).
    assert (Hstep0 : step w ACreateSim = Some (ECall s, w0)) by done.
    assert (Hstep1 : step w0 (ASession s) = Some (EAcquire s, w1)).
    { simpl. unfold session_step. rewrite Hs0. simpl. by rewrite Hl. }
    assert (Hloop : run w1 (replicate (length t) (ASession s)) =
                      Some (EComponent s <$> new_components s (S s) t, w2)).
    { apply (init_loop_run t 0 w1 s _ Hs1 eq_refl). intros k spec Hk. done. }
    destruct (VizSim_init_loop_spec t 0 s w1 _ Hs1)
      as (_ & Ht2 & _ & _ & _ & _ & vs2 & Hs2 & Hcs2 & _ & _ & _ & Hpc2).
    fold w2 in Ht2, Hs2.
    assert (Hpc2' : vs_pc vs2 = PInit (length t)).
    { rewrite Hpc2. by destruct t. }
    assert (Hstep2 : step w2 (ASession s) = Some (ESpawn s, spawn s w2)).
    { simpl. unfold session_step. rewrite Hs2. simpl. rewrite Hpc2', Ht2.
      simpl. fold t. by rewrite (proj2 (lookup_ge_None t (length t))). }
    eapply run_cons_Some; [exact Hstep0|].
    replace (2 + length t) with (1 + (length t + 1)) by lia.
    rewrite !replicate_add.
    eapply (run_cons_Some _ _ _ _ w1); [exact Hstep1|].
    eapply run_app_Some; [exact Hloop|].
    eapply run_cons_Some; [exact Hstep2|done].
  - intros Hl. split; [by apply create_sim_blocked|].
    cbn [run]. simpl. unfold session_step. simpl.
    rewrite lookup_insert_eq. simpl. by rewrite Hl.
Qed.

(** ** The model around a build *)

Lemma create_sim_model w :
  viz_lock (w_viz w) = false →
  ∃ w', create_sim w = Returned (w_next w, w') ∧
        viz_Simulator (w_viz w') = viz_Simulator (w_viz w) ∧
        viz_model (w_viz w') =
          init_all (new_components (w_next w) (S (w_next w))
                      (viz_template (w_viz w)))
                   (viz_model (w_viz w)).
Proof.
  intros Hl.
  set (w2 := VizSim_init_loop 0 (viz_template (w_viz w)) (w_next w)
               (acquire (w_next w) (VizSim_alloc w).2)).
  exists (spawn (w_next w) w2). split.
  { unfold create_sim. simpl. by rewrite Hl. }
  destruct (VizSim_init_loop_viz (viz_template (w_viz w)) 0 (w_next w)
              (acquire (w_next w) (VizSim_alloc w).2)) as [HS HM].
  split; [exact HS|exact HM].
Qed.

Lemma remove_init_commute cs c m :
  (∀ c1 c2 m, comp_id c1 ≠ comp_id c2 →
     remove_nengo_objects c1 (component_init c2 m) =
       component_init c2 (remove_nengo_objects c1 m)) →
  (∀ c', c' ∈ cs → comp_id c ≠ comp_id c') →
  remove_nengo_objects c (init_all cs m) =
    init_all cs (remove_nengo_objects c m).
Proof.
  intros Hcomm. revert m. induction cs as [|c' cs IH]; intros m Hne; [done|].
  simpl. rewrite IH by (intros; apply Hne; by right).
  rewrite Hcomm; [done|]. apply Hne. by left.
Qed.

Lemma remove_all_init_all cs m :
  (∀ c m, remove_nengo_objects c (component_init c m) = m) →
  (∀ c1 c2 m, comp_id c1 ≠ comp_id c2 →
     remove_nengo_objects c1 (component_init c2 m) =
       component_init c2 (remove_nengo_objects c1 m)) →
  NoDup (comp_id <$> cs) →
  remove_all cs (init_all cs m) = m.
Proof.
  intros Hundo Hcomm. revert m.
  induction cs as [|c cs IH]; intros m Hnd; [done|].
  apply NoDup_cons in Hnd as [Hnotin Hnd]. simpl.
  rewrite remove_init_commute; [|done|].
  - rewrite Hundo. by apply IH.
  - intros c' Hc' Heq. apply Hnotin. rewrite Heq.
    by apply list_elem_of_fmap_2.
Qed.

(** X9. Session creation followed by the build leaves the model as it
    found it, provided [remove_nengo_objects] undoes the constructor of its
    own component and does not interfere with the constructors of the
    others.  The simulator is built in between, on the model with the
    objects of all the components in it; the removals come in the order of
    construction, not in reverse, which is why the second condition is
    needed. *)
Theorem build_restores_model w :
  (∀ c m, remove_nengo_objects c (component_init c m) = m) →
  (∀ c1 c2 m, comp_id c1 ≠ comp_id c2 →
     remove_nengo_objects c1 (component_init c2 m) =
       component_init c2 (remove_nengo_objects c1 m)) →
  viz_lock (w_viz w) = false →
  (∀ m d, is_Some (viz_Simulator (w_viz w) m d)) →
  ∃ w1 tr w2 vs2 sm,
    create_sim w = Returned (w_next w, w1) ∧
    run w1 (replicate (3 + length (viz_template (w_viz w)))
                      (ASession (w_next w))) = Some (tr, w2) ∧
    viz_model (w_viz w2) = viz_model (w_viz w) ∧
    viz_lock (w_viz w2) = false ∧
    w_sims w2 !! w_next w = Some vs2 ∧ vs_building vs2 = false ∧
    vs_sim vs2 = Some sm ∧
    viz_Simulator (w_viz w)
      (init_all (vs_components vs2) (viz_model (w_viz w))) (vs_dt vs2) =
      Some sm.
Proof.
  intros Hundo Hcomm Hl Hsim.
  destruct (create_sim_returns w Hl)
    as (w1 & vs1 & Hret & Hs1 & Hcs1 & Hpc1 & _ & _ & _ & Hl1 & _).
  destruct (create_sim_model w Hl) as (w1' & Hret' & Hsim1 & Hm1).
  assert (w1' = w1) as -> by congruence.
  destruct (Hsim (viz_model (w_viz w1)) (vs_dt vs1)) as [sm Hsm].
  rewrite <-Hsim1 in Hsm.
  destruct (runner_build_run w1 (w_next w) vs1 sm Hs1 Hpc1 Hl1 Hsm)
    as (w2 & Hrun & Hl2 & Hm2 & Hs2).
  assert (Hlen : length (vs_components vs1) = length (viz_template (w_viz w))).
  { rewrite Hcs1. unfold new_components. by rewrite length_imap. }
  rewrite Hlen in Hrun.
  eexists w1, _, w2, _, sm. split_and!; [done|exact Hrun| |done|exact Hs2|..].
  - rewrite Hm2, Hm1, <-Hcs1. apply remove_all_init_all; [done..|].
    rewrite Hcs1, new_components_id. apply NoDup_seq.
  - done.
  - done.
  - simpl. rewrite Hcs1, <-Hm1, <-Hsim1. done.
Qed.

(** ** The release of the lock *)

(** X11. [lock.release()] at line 41 never fails: along every schedule
    the lock is held whenever a thread stands between its build and line
    41, so the release returns with the lock free and no thread dies of
    releasing a lock that is not held; and the release of a session comes
    while that session, and no other, holds the lock. *)
Theorem release_never_fails model dt Simulator acts tr w s :
  run (init_world model dt Simulator) acts = Some (tr, w) →
  (ERaise s LockError ∉ tr) ∧
  (∀ vs, w_sims w !! s = Some vs → vs_pc vs ≠ PFailed LockError) ∧
  (∀ vs j, w_sims w !! s = Some vs → vs_pc vs = PUndo j →
           viz_lock (w_viz w) = true ∧
           (vs_components vs !! j = None →
            ∃ w', session_step w s = Some (ERelease s, w') ∧
                  viz_lock (w_viz w') = false)) ∧
  (∀ tr1 tr2, tr = tr1 ++ ERelease s :: tr2 →
      holds_lock s tr1 ∧ ∀ s', holds_lock s' tr1 → s' = s).
Proof.
  intros Hrun.
  pose proof (world_inv_reachable _ _ _ _ _ _ Hrun) as Hinv.
  assert (Hheld : ∀ tr0 w0 vs j, world_inv tr0 w0 →
            w_sims w0 !! s = Some vs → vs_pc vs = PUndo j →
            viz_lock (w_viz w0) = true).
  { intros tr0 w0 vs j Hinv0 Hs Hpc.
    destruct (viz_lock (w_viz w0)) eqn:Hl; [done|].
    pose proof (mutex_free _ (inv_mutex _ _ Hinv0) _ _ Hl Hs) as Hh.
    by rewrite Hpc in Hh. }
  assert (Hlock : ERaise s LockError ∉ tr).
  { intros Hin. apply list_elem_of_split in Hin as (tr1 & tr2 & ->).
    destruct (reach_split _ _ _ _ _ _ _ _ Hrun)
      as (w1 & a & w2 & acts2 & Hinv1 & Hstep & _).
    destruct (step_event_pc _ _ _ _ Hstep) as (vs1 & j & Hs1 & Hpc1 & Hj).
    pose proof (Hheld _ _ _ _ Hinv1 Hs1 Hpc1) as Hl.
    destruct a; simpl in Hstep; try by simplify_eq.
    - session_cases Hstep; congruence.
    - destruct (w_sims w1 !! s0); simplify_eq/=.
    - unfold pop_component in Hstep. repeat case_match; simplify_eq. }
  split_and!; [done|..].
  - intros vs Hs Hpc. apply Hlock.
    destruct (trace_history _ _ (inv_trace _ _ Hinv) _ _ Hs) as [n Hn].
    apply (on_path_elem_of s); [simpl; by rewrite bool_decide_eq_true_2|].
    rewrite Hn. unfold history. rewrite Hpc. set_solver.
  - intros vs j Hs Hpc.
    pose proof (Hheld _ _ _ _ Hinv Hs Hpc) as Hl. split; [done|].
    intros Hj. unfold session_step. rewrite Hs. simpl. rewrite Hpc, Hj, Hl.
    eauto.
  - intros tr1 tr2 ->.
    destruct (reach_split _ _ _ _ _ _ _ _ Hrun)
      as (w1 & a & w2 & acts2 & Hinv1 & Hstep & _).
    destruct (step_event_pc _ _ _ _ Hstep) as (vs1 & j & Hs1 & Hpc1 & _).
    assert (Hh : holds_lock s tr1).
    { apply (holds_lock_holding _ w1); [done|]. exists vs1. by rewrite Hpc1. }
    split; [done|]. intros s' Hh'. by apply (holds_lock_unique tr1 w1).
Qed.

End RestProperties.

(** * The rest of [viz.py] on the toy organizer *)

(** X1 on the toy schedule: one configuration call, two entries. *)
Lemma template_follows_configuration_witness :
  viz_template (w_viz toy_final) =
    [(SimControl, [], []); (Slider, [ArgObject 7], [])].
Proof.
  destruct (template_follows_configuration (H := toy) [] default_dt
              nengo_Simulator toy_schedule toy_trace toy_final toy_run)
    as (Ht & _).
  exact Ht.
Defined.

(** X2 on the toy schedule, for the first session. *)
Lemma session_components_follow_template_witness :
  ∃ vs, w_sims toy_final !! 0 = Some vs ∧
        comp_spec <$> vs_components vs =
          [(SimControl, [], []); (Slider, [ArgObject 7], [])].
Proof.
  destruct (w_sims toy_final !! 0) as [vs|] eqn:Hs;
    [|vm_compute in Hs; discriminate].
  destruct (session_components_follow_template (H := toy) [] default_dt
              nengo_Simulator toy_schedule toy_trace toy_final 0 vs
              (take 6 toy_trace) (drop 7 toy_trace) toy_run Hs)
    as (Hspecs & _).
  - reflexivity.
  - exists vs. split; [reflexivity|exact Hspecs].
Defined.

(** X3 on the toy organizer: address 5 is not a key of the registry. *)
Lemma add_pop_round_trip_witness :
  viz_components
    (pop_component
       (add (w_viz toy_building_world)
            (mkComponent 5 0 (SimControl, [], []))).1 5).1 =
    viz_components (w_viz toy_building_world).
Proof.
  destruct (add_pop_round_trip (H := toy) (w_viz toy_building_world)
              (mkComponent 5 0 (SimControl, [], []))) as (_ & _ & Hsame & _).
  apply Hsame. vm_compute. reflexivity.
Defined.



(** X6 on the toy schedule: the second session left its loop after its
    [finish()]. *)
Lemma exit_only_after_finish_witness : EFinish 2 ∈ take 26 toy_trace.
Proof.
  destruct (exit_only_after_finish (H := toy) [] default_dt nengo_Simulator
              toy_schedule toy_trace toy_final 2 toy_run) as (Hexit & _).
  apply (Hexit (take 26 toy_trace) (drop 27 toy_trace)). reflexivity.
Defined.

(** X7 on the toy organizer, free and held. *)
Lemma create_sim_is_uninterrupted_init_witness :
  (∃ w', create_sim toy_world = Returned (w_next toy_world, w') ∧
         run toy_world
           (ACreateSim ::
              replicate (2 + length (viz_template (w_viz toy_world)))
                        (ASession (w_next toy_world))) =
           Some (ECall (w_next toy_world) :: EAcquire (w_next toy_world) ::
                   (EComponent (w_next toy_world) <$>
                      new_components (w_next toy_world)
                        (S (w_next toy_world))
                        (viz_template (w_viz toy_world))) ++
                   [ESpawn (w_next toy_world)], w')) ∧
  run toy_building_world [ACreateSim; ASession (w_next toy_building_world)]
    = None.
Proof.
  destruct (create_sim_is_uninterrupted_init (H := toy) toy_world)
    as (Hfree & _).
  destruct (create_sim_is_uninterrupted_init (H := toy) toy_building_world)
    as (_ & Hheld).
  split.
  - apply Hfree. reflexivity.
  - apply Hheld. reflexivity.
Defined.

(** X9 on the counting instance, where both conditions hold. *)
Lemma build_restores_model_witness :
  ∃ w1 tr w2,
    create_sim counting_world = Returned (w_next counting_world, w1) ∧
    run w1 (replicate (3 + length (viz_template (w_viz counting_world)))
                      (ASession (w_next counting_world))) = Some (tr, w2) ∧
    viz_model (w_viz w2) = viz_model (w_viz counting_world).
Proof.
  destruct (build_restores_model (H := counting) counting_world)
    as (w1 & tr & w2 & vs2 & sm & Hret & Hrun & Hm & _).
  - intros c m. simpl. lia.
  - intros c1 c2 m _. simpl. lia.
  - reflexivity.
  - intros m d. exists m. reflexivity.
  - exists w1, tr, w2. split; [exact Hret|]. split; [exact Hrun|exact Hm].
Defined.

(** X11 on the toy schedule: the first session released the lock while
    it held it. *)
Lemma release_never_fails_witness :
  (ERaise 0 LockError ∉ toy_trace) ∧ holds_lock 0 (take 12 toy_trace).
Proof.
  destruct (release_never_fails (H := toy) [] default_dt nengo_Simulator
              toy_schedule toy_trace toy_final 0 toy_run)
    as (Hno & _ & _ & Hrel).
  split; [exact Hno|].
  destruct (Hrel (take 12 toy_trace) (drop 13 toy_trace)) as [Hh _].
  - reflexivity.
  - exact Hh.
Defined.
